(** * Route generator (server/route-generator.py): a shallow embedding

    The Python class [NJRouteGenerator] is embedded function by function.

    - Numbers.  Python floats (edge lengths, coordinates, distances, the
      difficulty ratios) are embedded as exact rationals [Q]; every
      comparison and quotient of the source is kept as written.
    - Randomness.  The process-wide [random] module is embedded as a tape
      [nat -> nat] read at a cursor; the cursor is the state threaded through
      every function that samples.
    - Exceptions.  A call either returns or raises; [NetworkXNoPath] is the
      only exception the source catches, so the shortest-path primitive
      returns an [option] and every other exception is a [Raise].
    - External collaborators.  [nx.shortest_path] is a Section variable
      (an interface); [ox.utils_graph.get_route_edge_attributes] is embedded
      as the per-edge attribute snapshot of the cheapest parallel edge. *)

From stdpp Require Import base gmap sets list strings pretty.
From Stdlib Require Import Ascii ZArith QArith.

Local Open Scope Z_scope.

(** ** Data model *)

Definition node := Z.

(** An OSM tag value: one string or a list of strings. *)
Inductive tag :=
  | TagStr (s : string)
  | TagList (l : list string).

(** A [maxspeed] value: a string (possibly with a unit) or a number. *)
Inductive speed :=
  | SpeedStr (s : string)
  | SpeedNum (n : Z).

Record Edge := {
  eu : node;
  ev : node;
  length_m : Q;
  highway : option tag;
  name : option tag;
  maxspeed : option speed
}.

Record Node := { nid : node; nx : Q; ny : Q }.

(** [self.graph] together with [self.nodes_gdf] and [self.edges_gdf]. *)
Record Graph := { nodes : list Node; edges : list Edge }.

Definition qsum (l : list Q) : Q := foldl Qplus 0%Q l.

(** ** Exceptions and the sampling monad *)

Inductive exn := IndexError | KeyError | ValueError | AttributeError.

Inductive result (A : Type) :=
  | Ok (a : A)
  | Raise (e : exn).
Arguments Ok {A} a.
Arguments Raise {A} e.

Definition rbind {A B} (r : result A) (k : A → result B) : result B :=
  match r with
  | Ok a => k a
  | Raise e => Raise e
  end.

(** A computation that may draw from the random tape: it receives the cursor
    and returns a value with the advanced cursor, or raises. *)
Definition M (A : Type) : Type := nat → result (A * nat).

Definition ret {A} (a : A) : M A := λ st, Ok (a, st).
Definition bind {A B} (m : M A) (k : A → M B) : M B :=
  λ st, match m st with
        | Ok (a, st') => k a st'
        | Raise e => Raise e
        end.
Definition lift {A} (r : result A) : M A :=
  λ st, match r with
        | Ok a => Ok (a, st)
        | Raise e => Raise e
        end.

Declare Scope py_scope.
Delimit Scope py_scope with py.
Notation "'let*' x ':=' m 'in' k" := (bind m (λ x, k))
  (at level 10, x pattern, m at level 100, k at level 200) : py_scope.
Notation "'let?' x ':=' r 'in' k" := (rbind r (λ x, k))
  (at level 10, x pattern, r at level 100, k at level 200) : py_scope.
Local Open Scope py_scope.

(** Boolean comparisons on floats. *)
Definition Qleb (a b : Q) : bool := Qle_bool a b.
Definition Qltb (a b : Q) : bool := negb (Qle_bool b a).

(** ** MajorNodeSelector (generate_scenic_route, lines 72-88) *)

Definition is_digit (c : ascii) : bool :=
  (48 <=? nat_of_ascii c)%nat && (nat_of_ascii c <=? 57)%nat.

Fixpoint take_digits (s : string) : string :=
  match s with
  | String c r => if is_digit c then String c (take_digits r) else EmptyString
  | EmptyString => EmptyString
  end.

(** [.str.extract('(\d+)', expand=False)]: the leftmost, longest run of
    digits; no match gives NaN. *)
Fixpoint extract_digits (s : string) : option string :=
  match s with
  | EmptyString => None
  | String c r => if is_digit c then Some (take_digits s) else extract_digits r
  end.

Definition digit_value (c : ascii) : N := N.of_nat (nat_of_ascii c - 48).

Fixpoint parse_digits (acc : N) (s : string) : N :=
  match s with
  | EmptyString => acc
  | String c r => parse_digits (10 * acc + digit_value c)%N r
  end.

(** [.astype(str)] on one cell of the [maxspeed] column. *)
Definition astype_str (m : option speed) : string :=
  match m with
  | None => "nan"
  | Some (SpeedStr s) => s
  | Some (SpeedNum n) => pretty n
  end.

(** [... .str.extract(...).astype(float)], with [None] for NaN. *)
Definition maxspeed_value (m : option speed) : option N :=
  parse_digits 0 <$> extract_digits (astype_str m).

Definition major_highways : list string :=
  ["motorway"; "trunk"; "primary"; "secondary"].

(** [edges_gdf['highway'].isin([...])] on one cell. *)
Definition highway_isin (h : option tag) : bool :=
  match h with
  | Some (TagStr s) => bool_decide (s ∈ major_highways)
  | _ => false
  end.

Definition is_major (e : Edge) : bool :=
  highway_isin (highway e) ||
  match maxspeed_value (maxspeed e) with
  | Some n => (45 <=? n)%N
  | None => false
  end.

Definition major_edges (g : Graph) : list Edge :=
  filter (λ e, is_major e = true) (edges g).

Definition major_nodes (g : Graph) : gset node :=
  foldl (λ acc e, acc ∪ {[eu e]} ∪ {[ev e]}) ∅ (major_edges g).

(** ** Route features (the GeoJSON dictionaries the generators return)

    A key that one generator writes and the other does not is an [option]
    field.  [description] keeps the distance it prints (the text around it is
    formatting). *)

Record Properties := {
  pname : string * Z;
  description_km : Q;
  distance_km : Q;
  distance_miles : Q;
  roads : option (list string);
  ptype : string;
  difficulty : option string;
  loop : option bool;
  center : option (Q * Q)
}.

Record Feature := {
  properties : Properties;
  coordinates : list (Q * Q)
}.

(** ** DifficultyClassifier (_calculate_difficulty, lines 264-284) *)

(** [h in [...]] for a tag value: a list-valued tag is never equal to one of
    the strings. *)
Definition tag_in (l : list string) (h : tag) : bool :=
  match h with
  | TagStr s => bool_decide (s ∈ l)
  | TagList _ => false
  end.

(** [edge.get('highway', '')] *)
Definition edge_highway (e : Edge) : tag := default (TagStr "") (highway e).

Definition count_in (l : list string) (hs : list tag) : Z :=
  Z.of_nat (length (filter (λ h, tag_in l h = true) hs)).

Definition calculate_difficulty (route_edges : list Edge) : string :=
  let highway_types := edge_highway <$> route_edges in
  let motorway_count := count_in ["motorway"; "motorway_link"] highway_types in
  let primary_count := count_in ["primary"; "trunk"] highway_types in
  let total := Z.of_nat (length highway_types) in
  if (total =? 0)%Z then "medium"
  else if Qltb 0.5 (inject_Z motorway_count / inject_Z total) then "extreme"
  else if Qltb 0.6 (inject_Z (motorway_count + primary_count) / inject_Z total)
       then "hard"
  else if Qltb 0.4 (inject_Z primary_count / inject_Z total) then "medium"
  else "easy".

(** ** The generators *)

Section Generator.

(** [self.graph] and its two data frames. *)
Variable G : Graph.

(** [nx.shortest_path(self.graph, s, t, weight='length')]; [None] stands
    for [NetworkXNoPath]. *)
Variable shortest_path : node → node → option (list node).

(** The random tape. *)
Variable tape : nat → nat.

(** *** The [random] module *)

Definition randbelow (n : nat) : M nat := λ st, Ok ((tape st mod n)%nat, S st).

(** [random.choice(seq)] raises [IndexError] on an empty sequence. *)
Definition random_choice {A} (l : list A) : M A :=
  match l with
  | [] => lift (Raise IndexError)
  | _ => let* j := randbelow (length l) in
         match l !! j with
         | Some x => ret x
         | None => lift (Raise IndexError)
         end
  end.

(** [random.randint(a, b)] *)
Definition randint (a b : Z) : M Z :=
  let* j := randbelow (Z.to_nat (b - a + 1)) in ret (a + Z.of_nat j)%Z.

(** [random.sample(population, k)]: [k] elements at pairwise distinct
    positions, chosen one at a time from the positions still unused. *)
Fixpoint random_sample {A} (pool : list A) (k : nat) : M (list A) :=
  match k with
  | O => ret []
  | S k' =>
      match pool with
      | [] => lift (Raise ValueError)
      | _ => let* j := randbelow (length pool) in
             match pool !! j with
             | Some x => let* rest := random_sample (delete j pool) k' in
                         ret (x :: rest)
             | None => lift (Raise ValueError)
             end
      end
  end.

(** *** Graph access *)

(** [self.nodes_gdf.loc[node]] *)
Definition node_coord (n : node) : result (Q * Q) :=
  match list_find (λ nd, nid nd = n) (nodes G) with
  | Some (_, nd) => Ok (nx nd, ny nd)
  | None => Raise KeyError
  end.

(** [G.get_edge_data(u, v).values()]: the parallel edges from [u] to [v]. *)
Definition get_edge_data (u v : node) : list Edge :=
  filter (λ e, eu e = u ∧ ev e = v) (edges G).

(** [min(..., key=lambda x: x['length'])]: the first edge of least length. *)
Fixpoint min_by_length (e : Edge) (es : list Edge) : Edge :=
  match es with
  | [] => e
  | e' :: r =>
      min_by_length (if Qltb (length_m e') (length_m e) then e' else e) r
  end.

Definition cheapest_edge (u v : node) : result Edge :=
  match get_edge_data u v with
  | [] => Raise AttributeError
  | e :: es => Ok (min_by_length e es)
  end.

(** [ox.utils_graph.get_route_edge_attributes(G, route, ...)]: one
    attribute snapshot per consecutive pair of the route. *)
Fixpoint get_route_edge_attributes (route : list node) : result (list Edge) :=
  match route with
  | u :: (v :: _) as rest =>
      let? e := cheapest_edge u v in
      let? es := get_route_edge_attributes rest in
      Ok (e :: es)
  | _ => Ok []
  end.

(** [sum(get_route_edge_attributes(G, route, 'length'))] *)
Definition route_distance (route : list node) : result Q :=
  let? es := get_route_edge_attributes route in
  Ok (qsum (length_m <$> es)).

(** [LineString(coords)]: one coordinate alone is refused. *)
Definition LineString (coords : list (Q * Q)) : result (list (Q * Q)) :=
  match coords with
  | [_] => Raise ValueError
  | _ => Ok coords
  end.

(** [for node in route: route_coords.append(...)] *)
Fixpoint route_coords (route : list node) : result (list (Q * Q)) :=
  match route with
  | [] => Ok []
  | n :: r =>
      let? c := node_coord n in
      let? cs := route_coords r in
      Ok (c :: cs)
  end.

(** *** ScenicRouteSearch (generate_scenic_route, lines 90-128) *)

(** One pass of the body of [for _ in range(20)] up to the window test:
    the route drawn and its length when it lies in the window, [None] when
    the pass ends in [continue] or outside the window. *)
Definition scenic_attempt (major_nodes_list : list node)
    (min_distance max_distance : Q) : M (option (list node * Q)) :=
  let* start_node := random_choice major_nodes_list in
  let* end_node := random_choice major_nodes_list in
  if bool_decide (start_node = end_node) then ret None
  else
    match shortest_path start_node end_node with
    | None => ret None
    | Some route =>
        let* total_distance := lift (route_distance route) in
        if Qleb min_distance total_distance && Qleb total_distance max_distance
        then ret (Some (route, total_distance))
        else ret None
    end.

(** [if total_distance > best_distance: best_route, best_distance = ...] *)
Definition scenic_update (best : option (list node) * Q)
    (cand : option (list node * Q)) : option (list node) * Q :=
  match cand with
  | Some (route, total_distance) =>
      if Qltb best.2 total_distance then (Some route, total_distance) else best
  | None => best
  end.

Fixpoint scenic_loop (n : nat) (major_nodes_list : list node)
    (min_distance max_distance : Q) (best : option (list node) * Q)
    : M (option (list node) * Q) :=
  match n with
  | O => ret best
  | S k =>
      let* cand := scenic_attempt major_nodes_list min_distance max_distance in
      scenic_loop k major_nodes_list min_distance max_distance
        (scenic_update best cand)
  end.

(** What pass [k] of the loop yields when the loop is entered with the
    cursor at [st] (each pass reads two cells of the tape). *)
Definition scenic_sample (major_nodes_list : list node)
    (min_distance max_distance : Q) (st k : nat) : option (list node * Q) :=
  match scenic_attempt major_nodes_list min_distance max_distance
          (st + 2 * k)%nat with
  | Ok (cand, _) => cand
  | Raise _ => None
  end.

(** The search stage: the best route and its length, or [None] where the
    source logs "Could not find suitable route". *)
Definition scenic_search (major_nodes_list : list node)
    (min_distance max_distance : Q) : M (option (list node * Q)) :=
  let* best :=
    scenic_loop 20 major_nodes_list min_distance max_distance (None, 0%Q) in
  match best with
  | (Some (n :: r), best_distance) => ret (Some (n :: r, best_distance))
  | _ => ret None
  end.

(** Road-name extraction (lines 144-149). *)
Definition add_road_names (road_names : gset string) (edge_attrs : Edge)
    : gset string :=
  match name edge_attrs with
  | Some (TagStr s) => road_names ∪ {[s]}
  | Some (TagList l) => road_names ∪ list_to_set l
  | None => road_names
  end.

Definition road_names (route_edges : list Edge) : gset string :=
  foldl add_road_names ∅ route_edges.

(** Feature assembly of the scenic generator (lines 130-169). *)
Definition scenic_feature (best_route : list node) (best_distance : Q)
    : M Feature :=
  let* coords := lift (route_coords best_route) in
  let* route_line := lift (LineString coords) in
  let* route_edges := lift (get_route_edge_attributes best_route) in
  let* suffix := randint 1000 9999 in
  ret {| properties := {|
           pname := ("NJ Scenic Route #", suffix);
           description_km := best_distance / 1000;
           distance_km := best_distance / 1000;
           distance_miles := best_distance / 1609.34;
           roads := Some (take 10 (elements (road_names route_edges)));
           ptype := "ai_generated";
           difficulty := Some (calculate_difficulty route_edges);
           loop := None;
           center := None |};
         coordinates := route_line |}.

Definition generate_scenic_route (min_distance max_distance : Q)
    : M (option Feature) :=
  let major_nodes_list := elements (major_nodes G) in
  if (length major_nodes_list <? 2)%nat then ret None
  else
    let* found := scenic_search major_nodes_list min_distance max_distance in
    match found with
    | None => ret None
    | Some (best_route, best_distance) =>
        let* feature := scenic_feature best_route best_distance in
        ret (Some feature)
    end.

(** *** LoopRouteBuilder (generate_loop_route, lines 171-262) *)

(** [center_geom.distance(node_point) * 111000 <= radius], with the
    (non-negative) planar distance compared through its square. *)
Definition within_radius (center_point : Q * Q) (radius : Q) (nd : Node)
    : bool :=
  let d2 := ((nx nd - center_point.1) * (nx nd - center_point.1)
             + (ny nd - center_point.2) * (ny nd - center_point.2))%Q in
  Qleb 0 radius && Qleb (d2 * (111000 * 111000)) (radius * radius).

Definition nearby_nodes (center_point : Q * Q) (radius : Q) : list node :=
  nid <$> filter (λ nd, within_radius center_point radius nd = true) (nodes G).

(** The body of [for i in range(len(waypoints))], over the indices still
    to visit. *)
Fixpoint loop_segments (waypoints : list node) (indices : list nat)
    (full_route : list node) (total_distance : Q)
    : result (option (list node * Q)) :=
  match indices with
  | [] => Ok (Some (full_route, total_distance))
  | i :: rest =>
      match waypoints !! i,
            waypoints !! ((i + 1) mod length waypoints)%nat with
      | Some start, Some end_ =>
          match shortest_path start end_ with
          | None => Ok None
          | Some segment =>
              let segment := if (0 <? i)%nat then drop 1 segment else segment in
              let? distance := route_distance segment in
              loop_segments waypoints rest (full_route ++ segment)
                (total_distance + distance)
          end
      | _, _ => Raise IndexError
      end
  end.

(** The loop stage: the assembled route and the accumulated length. *)
Definition loop_search (center_point : Q * Q) (radius : Q)
    : M (option (list node * Q)) :=
  let nearby := nearby_nodes center_point radius in
  if (length nearby <? 4)%nat then ret None
  else
    let* waypoints := random_sample nearby (4 `min` length nearby)%nat in
    lift (loop_segments waypoints (seq 0 (length waypoints)) [] 0%Q).

Definition loop_feature (center_point : Q * Q) (full_route : list node)
    (total_distance : Q) : M Feature :=
  let* coords := lift (route_coords full_route) in
  let* route_line := lift (LineString coords) in
  let* suffix := randint 1000 9999 in
  ret {| properties := {|
           pname := ("NJ Circuit #", suffix);
           description_km := total_distance / 1000;
           distance_km := total_distance / 1000;
           distance_miles := total_distance / 1609.34;
           roads := None;
           ptype := "ai_loop";
           difficulty := None;
           loop := Some true;
           center := Some center_point |};
         coordinates := route_line |}.

(** [if not center_point: ...]: a random node's coordinate. *)
Definition loop_center (center_point : option (Q * Q)) : M (Q * Q) :=
  match center_point with
  | Some c => ret c
  | None =>
      let* center_node := random_choice (nid <$> nodes G) in
      lift (node_coord center_node)
  end.

Definition generate_loop_route (center_point : option (Q * Q)) (radius : Q)
    : M (option Feature) :=
  let* center_point := loop_center center_point in
  let* found := loop_search center_point radius in
  match found with
  | None => ret None
  | Some (full_route, total_distance) =>
      let* feature := loop_feature center_point full_route total_distance in
      ret (Some feature)
  end.

(** *** CollectionGenerator (generate_multiple_routes, lines 286-320) *)

(** The strategy the loop body runs at index [i]. *)
Definition route_attempt (i : nat) : M (option Feature) :=
  if (i mod 2 =? 0)%nat then
    let* j1 := randint (-5000) 10000 in
    let* j2 := randint (-10000) 20000 in
    generate_scenic_route (inject_Z (15000 + j1)) (inject_Z (50000 + j2))
  else
    let* j := randint 1000 5000 in
    generate_loop_route None (inject_Z (3000 + j)).

Fixpoint collect_routes (indices : list nat) (features : list Feature)
    : M (list Feature) :=
  match indices with
  | [] => ret features
  | i :: rest =>
      let* route := route_attempt i in
      collect_routes rest
        (match route with
         | Some f => features ++ [f]
         | None => features
         end)
  end.

(** The [features] list of the returned FeatureCollection. *)
Definition generate_multiple_routes (num_routes : Z) : M (list Feature) :=
  collect_routes (seq 0 (Z.to_nat num_routes)) [].

End Generator.

(** ** A reference shortest-path primitive

    An executable stand-in for [nx.shortest_path], used to run the generators
    on concrete graphs: it enumerates the walks from [s] with at most
    [length (nodes G)] edges and keeps the first one of least length that
    ends at [t]. *)

Section Reference.

Variable G : Graph.

Fixpoint walks_from (fuel : nat) (s : node) : list (list node) :=
  match fuel with
  | O => [[s]]
  | S k =>
      [s] :: flat_map
               (λ e, if bool_decide (eu e = s)
                     then cons s <$> walks_from k (ev e) else [])
               (edges G)
  end.

Definition walk_length (p : list node) : Q :=
  match route_distance G p with
  | Ok d => d
  | Raise _ => 0%Q
  end.

Fixpoint shortest_of (p : list node) (ps : list (list node)) : list node :=
  match ps with
  | [] => p
  | p' :: r =>
      shortest_of (if Qltb (walk_length p') (walk_length p) then p' else p) r
  end.

Definition reference_shortest_path (s t : node) : option (list node) :=
  match filter (λ p, last p = Some t) (walks_from (length (nodes G)) s) with
  | [] => None
  | p :: ps => Some (shortest_of p ps)
  end.

End Reference.

(** ** Concrete road networks *)

Module Demo.

Definition mk_edge (u v : node) (len : Q) (h : string) (nm : option tag)
    (ms : option speed) : Edge :=
  {| eu := u; ev := v; length_m := len; highway := Some (TagStr h);
     name := nm; maxspeed := ms |}.

(** Four junctions A=1, B=2, C=3, D=4 on a one-way circuit, with a detour
    node 5 on the way from B to C:
    A→B 200 m, B→5→C 100 m + 50 m (a direct B→C of 400 m exists too),
    C→D 300 m, D→A 250 m. *)
Definition city : Graph :=
  {| nodes := [ {| nid := 1; nx := 0; ny := 0 |};
                {| nid := 2; nx := 0.001; ny := 0 |};
                {| nid := 3; nx := 0.001; ny := 0.001 |};
                {| nid := 4; nx := 0; ny := 0.001 |};
                {| nid := 5; nx := 0.002; ny := 0.0005 |} ];
     edges := [ mk_edge 1 2 200 "primary" (Some (TagStr "Main St")) None;
                mk_edge 2 3 400 "residential" (Some (TagStr "Long Way")) None;
                mk_edge 2 5 100 "residential"
                  (Some (TagList ["Oak Ave"; "Route 9"; "n3"; "n4"; "n5";
                                  "n6"; "n7"; "n8"; "n9"; "n10"; "n11"]))
                  None;
                mk_edge 5 3 50 "residential" None (Some (SpeedStr "50 mph"));
                mk_edge 3 4 300 "secondary" (Some (TagStr "Main St")) None;
                mk_edge 4 1 250 "motorway" None (Some (SpeedNum 65)) ] |}.

Definition city_sp := reference_shortest_path city.

(** A tape of zeros and the identity tape. *)
Definition zeros : nat → nat := λ _, O.
Definition counting : nat → nat := λ i, i.

(** The tape 0, 1, 1, 0, 0, 1, 1, 0, ... *)
Definition flip : nat → nat := λ i, (((i + 1) / 2) mod 2)%nat.

(** Two junctions at the same place joined by an edge of length 0. *)
Definition twin : Graph :=
  {| nodes := [ {| nid := 1; nx := 0; ny := 0 |};
                {| nid := 2; nx := 0; ny := 0 |} ];
     edges := [ mk_edge 1 2 0 "primary" None None ] |}.

Definition twin_sp := reference_shortest_path twin.

(** A network without major roads. *)
Definition village : Graph :=
  {| nodes := [ {| nid := 1; nx := 0; ny := 0 |};
                {| nid := 2; nx := 0.001; ny := 0 |} ];
     edges := [ mk_edge 1 2 80 "residential" (Some (TagStr "Mill Lane"))
                  (Some (SpeedStr "25 mph")) ] |}.

(** What the generators return on [city]: the scenic route drawn by the
    counting tape for the window [100, 1000], and the circuit through
    A, B, C, D drawn by the tape of zeros around (0, 0). *)
Definition city_scenic_feature : Feature :=
  {| properties := {|
       pname := ("NJ Scenic Route #", 1040);
       description_km := 700 / 1000;
       distance_km := 700 / 1000;
       distance_miles := 700 / 1609.34;
       roads := Some ["Oak Ave"; "Main St"; "n7"; "n3"; "n5"; "n9";
                      "n11"; "n10"; "n6"; "n4"];
       ptype := "ai_generated";
       difficulty := Some "easy";
       loop := None;
       center := None |};
     coordinates := [(0.001, 0); (0.002, 0.0005); (0.001, 0.001);
                     (0, 0.001); (0, 0)]%Q |}.

Definition city_loop_feature : Feature :=
  {| properties := {|
       pname := ("NJ Circuit #", 1000);
       description_km := 250 / 1000;
       distance_km := 250 / 1000;
       distance_miles := 250 / 1609.34;
       roads := None;
       ptype := "ai_loop";
       difficulty := None;
       loop := Some true;
       center := Some (0, 0)%Q |};
     coordinates := [(0, 0); (0.001, 0); (0.002, 0.0005); (0.001, 0.001);
                     (0, 0.001); (0, 0)]%Q |}.

(** The one route of a collection of three requested on [city] with the
    counting tape (index 1; the scenic attempts at 0 and 2 find nothing in
    their kilometre-scale windows). *)
Definition city_collection_feature : Feature :=
  {| properties := {|
       pname := ("NJ Circuit #", 1048);
       description_km := 1150 / 1000;
       distance_km := 1150 / 1000;
       distance_miles := 1150 / 1609.34;
       roads := None;
       ptype := "ai_loop";
       difficulty := None;
       loop := Some true;
       center := Some (0, 0.001)%Q |};
     coordinates := [(0.002, 0.0005); (0.001, 0.001); (0, 0.001); (0, 0);
                     (0.001, 0); (0.002, 0.0005); (0.001, 0.001);
                     (0, 0.001); (0, 0); (0.001, 0); (0.002, 0.0005)]%Q |}.

End Demo.


(** ** Specification-level definitions *)

Global Instance tag_eq_dec : EqDecision tag.
Proof. solve_decision. Defined.



(** Directed adjacency in the road network, and walks. *)
Definition adjacent (G : Graph) (u v : node) : Prop :=
  Exists (λ e, eu e = u ∧ ev e = v) (edges G).

Fixpoint walk_in (R : node → node → Prop) (p : list node) : Prop :=
  match p with
  | u :: (v :: _) as rest => R u v ∧ walk_in R rest
  | _ => True
  end.

Definition is_walk (G : Graph) (p : list node) : Prop := walk_in (adjacent G) p.

Global Instance adjacent_dec G u v : Decision (adjacent G u v).
Proof. unfold adjacent. apply _. Defined.

Global Instance is_walk_dec G p : Decision (is_walk G p).
Proof.
  unfold is_walk. induction p as [|u [|v r] IH]; simpl; apply _.
Defined.

(** The contract of the shortest-path primitive, as far as the generators
    rely on it: an answer runs from the source to the target
    ([endpoint_paths]) along edges of the graph ([sound_paths]). *)
Definition endpoint_paths (sp : node → node → option (list node)) : Prop :=
  ∀ s t p, sp s t = Some p → head p = Some s ∧ last p = Some t.

Definition sound_paths (G : Graph) (sp : node → node → option (list node))
    : Prop :=
  ∀ s t p, sp s t = Some p → head p = Some s ∧ last p = Some t ∧ is_walk G p.

(** The coordinate sequence [coords] follows the route: one pair per node,
    in route order, along a walk of the graph. *)
Definition follows (G : Graph) (route : list node) (coords : list (Q * Q))
    : Prop :=
  is_walk G route ∧ Forall2 (λ n c, node_coord G n = Ok c) route coords.

(** Features returned by the two generators. *)
Definition scenic_generated (G : Graph) sp tape (f : Feature) : Prop :=
  ∃ min_distance max_distance st st',
    generate_scenic_route G sp tape min_distance max_distance st = Ok (Some f, st').

Definition loop_generated (G : Graph) sp tape (f : Feature) : Prop :=
  ∃ center_point radius st st',
    generate_loop_route G sp tape center_point radius st = Ok (Some f, st').

Definition generated (G : Graph) sp tape (f : Feature) : Prop :=
  scenic_generated G sp tape f ∨ loop_generated G sp tape f.

(** The scenic search as the specification states it (section 4.2): the
    answer is the first longest of the sampled in-window routes, and absence
    means that no pass sampled an in-window route. *)
Definition keeps_longest_in_window (G : Graph) sp tape (mnl : list node)
    (min_distance max_distance : Q) (st : nat) : Prop :=
  ∀ res st',
    scenic_search G sp tape mnl min_distance max_distance st = Ok (res, st') →
    match res with
    | Some (r, d) =>
        ∃ k, (k < 20)%nat ∧
          scenic_sample G sp tape mnl min_distance max_distance st k = Some (r, d) ∧
          ∀ j r' d', (j < 20)%nat →
            scenic_sample G sp tape mnl min_distance max_distance st j = Some (r', d') →
            (d' <= d)%Q ∧ ((j < k)%nat → (d' < d)%Q)
    | None =>
        ∀ j, (j < 20)%nat →
          scenic_sample G sp tape mnl min_distance max_distance st j = None
    end.

(** A road name met on one of the edges of a route. *)
Definition encountered (route_edges : list Edge) (s : string) : Prop :=
  ∃ e, e ∈ route_edges ∧
       (name e = Some (TagStr s) ∨ ∃ l, name e = Some (TagList l) ∧ s ∈ l).

(** The feature carries a [roads] list of at most ten distinct names. *)
Definition capped_roads (f : Feature) : Prop :=
  ∃ l, roads (properties f) = Some l ∧ (length l <= 10)%nat ∧ NoDup l.

(** [n] is the first integer embedded in [s]: [s] is [pre ++ ds ++ post]
    where [pre] holds no digit, [ds] is a non-empty run of digits that [post]
    does not continue, and [n] is the decimal value of [ds]. *)
Fixpoint all_chars (P : ascii → bool) (s : string) : bool :=
  match s with
  | EmptyString => true
  | String c r => P c && all_chars P r
  end.

Fixpoint decimal_value (ds : string) : N :=
  match ds with
  | EmptyString => 0%N
  | String c r =>
      (digit_value c * 10 ^ N.of_nat (String.length r) + decimal_value r)%N
  end.

Definition starts_without_digit (s : string) : Prop :=
  match s with
  | EmptyString => True
  | String c _ => is_digit c = false
  end.

Definition first_embedded_int (s : string) (n : N) : Prop :=
  ∃ pre ds post,
    s = pre +:+ ds +:+ post ∧
    all_chars (λ c, negb (is_digit c)) pre = true ∧
    ds ≠ EmptyString ∧ all_chars is_digit ds = true ∧
    starts_without_digit post ∧
    n = decimal_value ds.

(** The outcomes of the attempts at the indices [i, i+1, ..., i+k-1]: each
    index is attempted once, from the cursor where the previous attempt
    stopped. *)
Inductive attempts (G : Graph) sp tape
    : nat → nat → nat → list (option Feature) → nat → Prop :=
  | attempts_nil i st : attempts G sp tape i 0 st [] st
  | attempts_cons i k st o st1 os st2 :
      route_attempt G sp tape i st = Ok (o, st1) →
      attempts G sp tape (S i) k st1 os st2 →
      attempts G sp tape i (S k) st (o :: os) st2.

(** A loaded road network: node identifiers are unique, there is at least
    one node, and every edge joins two nodes of the network. *)
Definition well_formed (G : Graph) : Prop :=
  NoDup (nid <$> nodes G) ∧ nodes G ≠ [] ∧
  ∀ e, e ∈ edges G → eu e ∈ nid <$> nodes G ∧ ev e ∈ nid <$> nodes G.

(** The length of the first edge of a segment (0 for a segment without
    edges): what is lost when the segment is measured after its leading node
    has been dropped. *)
Definition first_edge_length (G : Graph) (segment : list node) : Q :=
  match segment with
  | u :: v :: _ =>
      match cheapest_edge G u v with
      | Ok e => length_m e
      | Raise _ => 0%Q
      end
  | _ => 0%Q
  end.
(** * Properties *)

(** ** Reasoning about the monads *)

Lemma rbind_Ok {A B} (r : result A) (k : A → result B) (b : B) :
  rbind r k = Ok b ↔ ∃ a, r = Ok a ∧ k a = Ok b.
Proof.
  destruct r as [a|e]; simpl; split.
  - eauto.
  - intros (a' & Heq & H). by injection Heq as ->.
  - done.
  - by intros (a' & ? & _).
Qed.

Lemma bind_Ok {A B} (m : M A) (k : A → M B) st b st' :
  bind m k st = Ok (b, st') ↔
  ∃ a st1, m st = Ok (a, st1) ∧ k a st1 = Ok (b, st').
Proof.
  unfold bind. destruct (m st) as [[a st1]|e]; split.
  - eauto.
  - intros (a' & st1' & Heq & H). by injection Heq as -> ->.
  - done.
  - by intros (a' & st1' & ? & _).
Qed.

Lemma lift_Ok {A} (r : result A) st a st' :
  lift r st = Ok (a, st') ↔ r = Ok a ∧ st' = st.
Proof.
  unfold lift. destruct r as [x|e]; split.
  - intros Heq. by injection Heq as -> ->.
  - intros [Heq ->]. by injection Heq as ->.
  - done.
  - by intros [? _].
Qed.

Lemma ret_Ok {A} (a b : A) st st' :
  ret a st = Ok (b, st') ↔ b = a ∧ st' = st.
Proof.
  unfold ret. split.
  - intros Heq. by injection Heq as -> ->.
  - by intros [-> ->].
Qed.

(** ** Comparisons on rationals *)

Lemma Qleb_le a b : Qleb a b = true ↔ (a <= b)%Q.
Proof. apply Qle_bool_iff. Qed.

Lemma Qltb_lt a b : Qltb a b = true ↔ (a < b)%Q.
Proof.
  unfold Qltb. rewrite negb_true_iff, <- not_true_iff_false, Qle_bool_iff.
  split; [apply Qnot_le_lt | apply Qlt_not_le].
Qed.

Lemma Qltb_ge a b : Qltb a b = false ↔ (b <= a)%Q.
Proof.
  unfold Qltb. rewrite negb_false_iff. apply Qle_bool_iff.
Qed.


(** ** DifficultyClassifier *)





(** The two classifier cases of the specification's section 8. *)
Example difficulty_six_motorways :
  calculate_difficulty
    (replicate 6 (Demo.mk_edge 1 2 10 "motorway" None None)
     ++ replicate 4 (Demo.mk_edge 1 2 10 "residential" None None)) = "extreme".
Proof. reflexivity. Qed.

Example difficulty_five_primaries :
  calculate_difficulty
    (replicate 5 (Demo.mk_edge 1 2 10 "primary" None None)
     ++ replicate 5 (Demo.mk_edge 1 2 10 "residential" None None)) = "medium".
Proof. reflexivity. Qed.

(** A list-valued highway tag counts towards the total only. *)
Example difficulty_list_tag :
  calculate_difficulty
    [ {| eu := 1; ev := 2; length_m := 10;
         highway := Some (TagList ["motorway"]); name := None;
         maxspeed := None |} ] = "easy".
Proof. reflexivity. Qed.

(** ** ScenicRouteSearch *)

Section ScenicSearch.

Context (G : Graph) (sp : node → node → option (list node)) (tape : nat → nat).
Context (mnl : list node) (min_distance max_distance : Q).

Lemma randbelow_Ok n st j st' :
  randbelow tape n st = Ok (j, st') ↔ j = (tape st mod n)%nat ∧ st' = S st.
Proof.
  unfold randbelow. split.
  - intros Heq. by injection Heq as <- <-.
  - by intros [-> ->].
Qed.

Lemma random_choice_Ok {A} (l : list A) st x st' :
  random_choice tape l st = Ok (x, st') →
  l !! (tape st mod length l)%nat = Some x ∧ st' = S st.
Proof.
  unfold random_choice. destruct l as [|a l]; [done|].
  intros H. apply bind_Ok in H as (j & st1 & Hj & H).
  apply randbelow_Ok in Hj as [-> ->].
  destruct (_ !! _) as [y|] eqn:Hy; [|done].
  by apply ret_Ok in H as [-> ->].
Qed.

Lemma randint_Ok a b st z st' :
  randint tape a b st = Ok (z, st') →
  z = (a + Z.of_nat (tape st mod Z.to_nat (b - a + 1)))%Z ∧ st' = S st.
Proof.
  unfold randint. intros H. apply bind_Ok in H as (j & st1 & Hj & H).
  apply randbelow_Ok in Hj as [-> ->]. by apply ret_Ok in H as [-> ->].
Qed.

(** A pass that returns has read exactly two cells, and a candidate it
    yields is the shortest path between two distinct drawn nodes, with its
    length inside the window. *)
Lemma scenic_attempt_Ok st cand st' :
  scenic_attempt G sp tape mnl min_distance max_distance st = Ok (cand, st') →
  st' = (st + 2)%nat ∧
  ∀ r d, cand = Some (r, d) →
    ∃ s e, mnl !! (tape st mod length mnl)%nat = Some s ∧
           mnl !! (tape (S st) mod length mnl)%nat = Some e ∧
           s ≠ e ∧ sp s e = Some r ∧ route_distance G r = Ok d ∧
           (min_distance <= d)%Q ∧ (d <= max_distance)%Q.
Proof.
  unfold scenic_attempt. intros H.
  apply bind_Ok in H as (s & st1 & Hs & H).
  apply bind_Ok in H as (e & st2 & He & H).
  apply random_choice_Ok in Hs as [Hs ->].
  apply random_choice_Ok in He as [He ->].
  case_bool_decide as Hse.
  { apply ret_Ok in H as [-> ->]. split; [lia|done]. }
  destruct (sp s e) as [route|] eqn:Hsp.
  2:{ apply ret_Ok in H as [-> ->]. split; [lia|done]. }
  apply bind_Ok in H as (d & st3 & Hd & H).
  apply lift_Ok in Hd as [Hd ->].
  destruct (Qleb min_distance d && Qleb d max_distance) eqn:Hwin.
  - apply ret_Ok in H as [-> ->]. split; [lia|].
    intros r d' Heq. injection Heq as <- <-.
    apply andb_true_iff in Hwin as [H1 H2].
    apply Qleb_le in H1, H2. by exists s, e.
  - apply ret_Ok in H as [-> ->]. split; [lia|done].
Qed.

Lemma scenic_sample_attempt st cand st' :
  scenic_attempt G sp tape mnl min_distance max_distance st = Ok (cand, st') →
  scenic_sample G sp tape mnl min_distance max_distance st 0 = cand.
Proof.
  unfold scenic_sample. replace (st + 2 * 0)%nat with st by lia. by intros ->.
Qed.

Lemma scenic_sample_shift st k :
  scenic_sample G sp tape mnl min_distance max_distance (st + 2) k =
  scenic_sample G sp tape mnl min_distance max_distance st (S k).
Proof.
  unfold scenic_sample. by replace (st + 2 + 2 * k)%nat with (st + 2 * S k)%nat by lia.
Qed.

Lemma scenic_sample_Some st k r d :
  scenic_sample G sp tape mnl min_distance max_distance st k = Some (r, d) →
  ∃ s e, s ∈ mnl ∧ e ∈ mnl ∧ s ≠ e ∧ sp s e = Some r ∧
         route_distance G r = Ok d ∧
         (min_distance <= d)%Q ∧ (d <= max_distance)%Q.
Proof.
  unfold scenic_sample.
  destruct (scenic_attempt _ _ _ _ _ _ _) as [[cand st']|] eqn:Hatt; [|done].
  intros ->. apply scenic_attempt_Ok in Hatt as [_ Hc].
  destruct (Hc r d eq_refl) as (s & e & Hs & He & Hrest).
  exists s, e. split; [by eapply list_elem_of_lookup_2|].
  split; [by eapply list_elem_of_lookup_2|done].
Qed.

(** The loop is a left fold of the update over the passes. *)
Lemma scenic_loop_Ok n best st best' st' :
  scenic_loop G sp tape n mnl min_distance max_distance best st = Ok (best', st') →
  st' = (st + 2 * n)%nat ∧
  best' = foldl scenic_update best
            (scenic_sample G sp tape mnl min_distance max_distance st <$> seq 0 n).
Proof.
  revert best st. induction n as [|n IH]; intros best st H; simpl in H.
  - apply ret_Ok in H as [-> ->]. split; [lia|done].
  - apply bind_Ok in H as (cand & st1 & Hatt & H).
    pose proof (scenic_sample_attempt _ _ _ Hatt) as H0.
    apply scenic_attempt_Ok in Hatt as [-> _].
    apply IH in H as [-> ->]. split; [lia|].
    simpl. rewrite H0. f_equal.
    rewrite <- fmap_S_seq, <- list_fmap_compose.
    apply list_fmap_ext. intros i j _. simpl. apply scenic_sample_shift.
Qed.

End ScenicSearch.

(** The fold of [scenic_update]: the recorded length never decreases, bounds
    every candidate seen, and a change of the record comes from the first
    candidate of that (strictly greater) length. *)
Lemma scenic_update_fold (cands : list (option (list node * Q)))
    (best : option (list node) * Q) :
  let res := foldl scenic_update best cands in
  (best.2 <= res.2)%Q ∧
  (∀ j r d, cands !! j = Some (Some (r, d)) → (d <= res.2)%Q) ∧
  (res = best ∨
   ∃ k r d, cands !! k = Some (Some (r, d)) ∧ res = (Some r, d) ∧
            (best.2 < d)%Q ∧
            ∀ j r' d', (j < k)%nat → cands !! j = Some (Some (r', d')) → (d' < d)%Q).
Proof.
  revert best. induction cands as [|c cs IH]; intros best; simpl.
  { split; [apply Qle_refl|]. split; [done|by left]. }
  set (best1 := scenic_update best c).
  assert (Hmono : (best.2 <= best1.2)%Q).
  { unfold best1, scenic_update. destruct c as [[r d]|]; [|apply Qle_refl].
    destruct (Qltb best.2 d) eqn:Hlt; [|apply Qle_refl].
    apply Qltb_lt in Hlt. simpl. by apply Qlt_le_weak. }
  assert (Hc : ∀ r d, c = Some (r, d) → (d <= best1.2)%Q).
  { intros r d ->. unfold best1, scenic_update.
    destruct (Qltb best.2 d) eqn:Hlt; simpl; [apply Qle_refl|].
    by apply Qltb_ge in Hlt. }
  destruct (IH best1) as (Hle & Hall & Hres). split; [|split].
  - by eapply Qle_trans.
  - intros [|j] r d Hj; simpl in Hj.
    + injection Hj as ->. eapply Qle_trans; [by eapply Hc|done].
    + by eapply Hall.
  - destruct Hres as [Heq|(k & r & d & Hk & Heq & Hlt & Hfirst)].
    + rewrite Heq. unfold best1, scenic_update.
      destruct c as [[r d]|]; [|by left].
      destruct (Qltb best.2 d) eqn:Hlt; [|by left].
      right. exists 0%nat, r, d. apply Qltb_lt in Hlt.
      split; [done|]. split; [done|]. split; [done|]. intros j ?? Hj. lia.
    + right. exists (S k), r, d. split; [done|]. split; [done|].
      split; [by eapply Qle_lt_trans|].
      intros [|j] r' d' Hj Hlook; simpl in Hlook.
      * injection Hlook as ->. eapply Qle_lt_trans; [by eapply Hc|done].
      * eapply Hfirst; [|done]. lia.
Qed.

Section ScenicResults.

Context (G : Graph) (sp : node → node → option (list node)) (tape : nat → nat).

Lemma route_distance_nil : route_distance G [] = Ok 0%Q.
Proof. reflexivity. Qed.

(** The search stage in terms of the twenty passes. *)
Lemma scenic_search_Ok mnl min_distance max_distance st res st' :
  scenic_search G sp tape mnl min_distance max_distance st = Ok (res, st') →
  st' = (st + 40)%nat ∧
  match res with
  | Some (r, d) =>
      ∃ k, (k < 20)%nat ∧
        scenic_sample G sp tape mnl min_distance max_distance st k = Some (r, d) ∧
        (0 < d)%Q ∧
        ∀ j r' d', (j < 20)%nat →
          scenic_sample G sp tape mnl min_distance max_distance st j = Some (r', d') →
          (d' <= d)%Q ∧ ((j < k)%nat → (d' < d)%Q)
  | None =>
      ∀ j r' d', (j < 20)%nat →
        scenic_sample G sp tape mnl min_distance max_distance st j = Some (r', d') →
        (d' <= 0)%Q
  end.
Proof.
  unfold scenic_search. intros H.
  apply bind_Ok in H as (best & st1 & Hloop & H).
  apply scenic_loop_Ok in Hloop as [-> Hbest].
  set (cands := scenic_sample G sp tape mnl min_distance max_distance st <$> seq 0 20) in *.
  assert (Hlook : ∀ j c, cands !! j = Some c ↔
    (j < 20)%nat ∧ c = scenic_sample G sp tape mnl min_distance max_distance st j).
  { intros j c. unfold cands. rewrite list_lookup_fmap. split.
    - intros Hj. destruct (seq 0 20 !! j) as [i|] eqn:Hi; [|done].
      apply lookup_seq in Hi as [-> ?]. simpl in Hj. by injection Hj as <-.
    - intros [Hj ->]. by rewrite (lookup_seq_lt 0 20 j Hj). }
  destruct (scenic_update_fold cands (None, 0%Q)) as (_ & Hall & Hres).
  rewrite <- Hbest in Hall, Hres.
  destruct Hres as [->|(k & r & d & Hk & -> & Hpos & Hfirst)].
  - apply ret_Ok in H as [-> ->]. split; [lia|].
    intros j r' d' Hj Hs. eapply (Hall j r' d'). apply Hlook. by rewrite Hs.
  - apply Hlook in Hk as [Hk Hsam]. simpl in Hpos.
    assert (Hne : r ≠ []).
    { intros ->. symmetry in Hsam.
      apply scenic_sample_Some in Hsam as (_ & _ & _ & _ & _ & _ & Hd & _).
      rewrite route_distance_nil in Hd. injection Hd as <-.
      by apply Qlt_irrefl in Hpos. }
    destruct r as [|n r]; [done|].
    apply ret_Ok in H as [-> ->]. split; [lia|].
    exists k. split; [done|]. split; [done|]. split; [done|].
    intros j r' d' Hj Hs. split.
    + eapply (Hall j r' d'). apply Hlook. by rewrite Hs.
    + intros Hjk. eapply (Hfirst j r' d' Hjk). apply Hlook. by rewrite Hs.
Qed.

End ScenicResults.

(** ** Feature assembly *)

Section Features.

Context (G : Graph) (sp : node → node → option (list node)) (tape : nat → nat).

Lemma LineString_Ok coords line :
  LineString coords = Ok line → line = coords ∧ length coords ≠ 1%nat.
Proof.
  destruct coords as [|c [|c' cs]]; simpl; intros H; try done;
    by injection H as <-.
Qed.

Lemma route_coords_Ok route coords :
  route_coords G route = Ok coords →
  Forall2 (λ n c, node_coord G n = Ok c) route coords.
Proof.
  revert coords. induction route as [|n r IH]; intros coords H; simpl in H.
  - injection H as <-. constructor.
  - apply rbind_Ok in H as (c & Hc & H).
    apply rbind_Ok in H as (cs & Hcs & H).
    injection H as <-. constructor; [done|by apply IH].
Qed.

Lemma scenic_feature_Ok route d st f st' :
  scenic_feature G tape route d st = Ok (f, st') →
  ∃ route_edges suffix,
    route_coords G route = Ok (coordinates f) ∧
    get_route_edge_attributes G route = Ok route_edges ∧
    properties f =
      {| pname := ("NJ Scenic Route #", suffix);
         description_km := d / 1000;
         distance_km := d / 1000;
         distance_miles := d / 1609.34;
         roads := Some (take 10 (elements (road_names route_edges)));
         ptype := "ai_generated";
         difficulty := Some (calculate_difficulty route_edges);
         loop := None;
         center := None |}.
Proof.
  unfold scenic_feature. intros H.
  apply bind_Ok in H as (coords & st1 & Hc & H). apply lift_Ok in Hc as [Hc ->].
  apply bind_Ok in H as (line & st1 & Hl & H). apply lift_Ok in Hl as [Hl ->].
  apply LineString_Ok in Hl as [-> _].
  apply bind_Ok in H as (es & st1 & He & H). apply lift_Ok in He as [He ->].
  apply bind_Ok in H as (suffix & st1 & Hs & H).
  apply ret_Ok in H as [-> ->]. by exists es, suffix.
Qed.

Lemma generate_scenic_route_Ok min_distance max_distance st f st' :
  generate_scenic_route G sp tape min_distance max_distance st = Ok (Some f, st') →
  (2 <= length (elements (major_nodes G)))%nat ∧
  ∃ route d,
    scenic_search G sp tape (elements (major_nodes G)) min_distance max_distance st
      = Ok (Some (route, d), (st + 40)%nat) ∧
    scenic_feature G tape route d (st + 40)%nat = Ok (f, st').
Proof.
  unfold generate_scenic_route. intros H.
  destruct (Nat.ltb_spec (length (elements (major_nodes G))) 2) as [Hlt|Hge].
  { by apply ret_Ok in H as [? _]. }
  split; [done|].
  apply bind_Ok in H as (found & st1 & Hsearch & H).
  pose proof (scenic_search_Ok _ _ _ _ _ _ _ _ _ Hsearch) as [-> _].
  destruct found as [[route d]|].
  2:{ by apply ret_Ok in H as [? _]. }
  apply bind_Ok in H as (f' & st2 & Hf & H).
  apply ret_Ok in H as [Heq ->]. injection Heq as ->.
  by exists route, d.
Qed.

Lemma loop_feature_Ok center_point route d st f st' :
  loop_feature G tape center_point route d st = Ok (f, st') →
  ∃ suffix,
    route_coords G route = Ok (coordinates f) ∧
    properties f =
      {| pname := ("NJ Circuit #", suffix);
         description_km := d / 1000;
         distance_km := d / 1000;
         distance_miles := d / 1609.34;
         roads := None;
         ptype := "ai_loop";
         difficulty := None;
         loop := Some true;
         center := Some center_point |}.
Proof.
  unfold loop_feature. intros H.
  apply bind_Ok in H as (coords & st1 & Hc & H). apply lift_Ok in Hc as [Hc ->].
  apply bind_Ok in H as (line & st1 & Hl & H). apply lift_Ok in Hl as [Hl ->].
  apply LineString_Ok in Hl as [-> _].
  apply bind_Ok in H as (suffix & st1 & Hs & H).
  apply ret_Ok in H as [-> ->]. by exists suffix.
Qed.

Lemma generate_loop_route_Ok center_point radius st f st' :
  generate_loop_route G sp tape center_point radius st = Ok (Some f, st') →
  ∃ c st1 route d st2,
    loop_center G tape center_point st = Ok (c, st1) ∧
    loop_search G sp tape c radius st1 = Ok (Some (route, d), st2) ∧
    loop_feature G tape c route d st2 = Ok (f, st').
Proof.
  unfold generate_loop_route. intros H.
  apply bind_Ok in H as (c & st1 & Hc & H).
  apply bind_Ok in H as (found & st2 & Hsearch & H).
  destruct found as [[route d]|].
  2:{ by apply ret_Ok in H as [? _]. }
  apply bind_Ok in H as (f' & st3 & Hf & H).
  apply ret_Ok in H as [Heq ->]. injection Heq as ->.
  by exists c, st1, route, d, st2.
Qed.

End Features.


(** ** Results on the scenic search *)

(** C2. Whenever the scenic generator returns a feature, the route found by
    its search stage has a total length (the sum of the lengths of the edges
    it traverses) inside [[min_distance, max_distance]]; that length is the
    one recorded in the feature. *)
Theorem scenic_route_within_window (G : Graph) sp tape
    (min_distance max_distance : Q) (st : nat) (f : Feature) (st' : nat) :
  generate_scenic_route G sp tape min_distance max_distance st = Ok (Some f, st') →
  ∃ route route_edges total,
    scenic_search G sp tape (elements (major_nodes G)) min_distance max_distance st
      = Ok (Some (route, total), (st + 40)%nat) ∧
    get_route_edge_attributes G route = Ok route_edges ∧
    total = qsum (length_m <$> route_edges) ∧
    (min_distance <= total)%Q ∧ (total <= max_distance)%Q ∧
    distance_km (properties f) = (total / 1000)%Q ∧
    route_coords G route = Ok (coordinates f).
Proof.
  intros H. apply generate_scenic_route_Ok in H as (_ & route & d & Hsearch & Hf).
  pose proof (scenic_search_Ok _ _ _ _ _ _ _ _ _ Hsearch) as (_ & k & _ & Hk & _).
  apply scenic_sample_Some in Hk as (s & e & _ & _ & _ & _ & Hd & Hmin & Hmax).
  apply scenic_feature_Ok in Hf as (es & suffix & Hcoords & Hes & Hprops).
  unfold route_distance in Hd. rewrite Hes in Hd. simpl in Hd. injection Hd as Hd.
  exists route, es, d. rewrite Hprops. done.
Qed.

Lemma scenic_route_within_window_witness :
  generate_scenic_route Demo.city Demo.city_sp Demo.counting 100 1000 0%nat
    = Ok (Some Demo.city_scenic_feature, 41%nat) ∧
  ∃ route route_edges total,
    scenic_search Demo.city Demo.city_sp Demo.counting
      (elements (major_nodes Demo.city)) 100 1000 0%nat
      = Ok (Some (route, total), 40%nat) ∧
    get_route_edge_attributes Demo.city route = Ok route_edges ∧
    total = qsum (length_m <$> route_edges) ∧
    (100 <= total)%Q ∧ (total <= 1000)%Q ∧
    distance_km (properties Demo.city_scenic_feature) = (total / 1000)%Q ∧
    route_coords Demo.city route = Ok (coordinates Demo.city_scenic_feature).
Proof.
  assert (H : generate_scenic_route Demo.city Demo.city_sp Demo.counting
                100 1000 0%nat = Ok (Some Demo.city_scenic_feature, 41%nat))
    by (vm_compute; reflexivity).
  split; [exact H|].
  exact (scenic_route_within_window Demo.city Demo.city_sp Demo.counting
           100 1000 0%nat Demo.city_scenic_feature 41%nat H).
Defined.

(** C6 (as amended). The search makes exactly twenty passes, each reading two
    cells of the tape whatever its outcome (equal endpoints, no path, out of
    window or in window).  A pass yields a candidate only for the shortest
    path between two distinct drawn major nodes whose length lies in the
    window.  The answer is the first candidate of greatest length among the
    candidates of positive length, and absence means that no pass yielded a
    candidate of positive length. *)
Theorem scenic_search_keeps_first_longest (G : Graph) sp tape
    (mnl : list node) (min_distance max_distance : Q) (st : nat)
    (res : option (list node * Q)) (st' : nat) :
  scenic_search G sp tape mnl min_distance max_distance st = Ok (res, st') →
  st' = (st + 2 * 20)%nat ∧
  (∀ k r d,
     scenic_sample G sp tape mnl min_distance max_distance st k = Some (r, d) →
     ∃ s e, s ∈ mnl ∧ e ∈ mnl ∧ s ≠ e ∧ sp s e = Some r ∧
            route_distance G r = Ok d ∧
            (min_distance <= d)%Q ∧ (d <= max_distance)%Q) ∧
  match res with
  | Some (r, d) =>
      ∃ k, (k < 20)%nat ∧
        scenic_sample G sp tape mnl min_distance max_distance st k = Some (r, d) ∧
        (0 < d)%Q ∧
        ∀ j r' d', (j < 20)%nat →
          scenic_sample G sp tape mnl min_distance max_distance st j = Some (r', d') →
          (d' <= d)%Q ∧ ((j < k)%nat → (d' < d)%Q)
  | None =>
      ∀ j r' d', (j < 20)%nat →
        scenic_sample G sp tape mnl min_distance max_distance st j = Some (r', d') →
        (d' <= 0)%Q
  end.
Proof.
  intros H. apply scenic_search_Ok in H as [-> Hres].
  split; [done|]. split; [|done].
  intros k r d. apply scenic_sample_Some.
Qed.

Lemma scenic_search_keeps_first_longest_witness :
  scenic_search Demo.city Demo.city_sp Demo.counting
    (elements (major_nodes Demo.city)) 100 1000 0%nat
    = Ok (Some ([2; 5; 3; 4; 1], 700%Q), 40%nat) ∧
  ∃ k, (k < 20)%nat ∧
    scenic_sample Demo.city Demo.city_sp Demo.counting
      (elements (major_nodes Demo.city)) 100 1000 0%nat k
      = Some ([2; 5; 3; 4; 1], 700%Q) ∧
    (0 < 700)%Q ∧
    ∀ j r' d', (j < 20)%nat →
      scenic_sample Demo.city Demo.city_sp Demo.counting
        (elements (major_nodes Demo.city)) 100 1000 0%nat j = Some (r', d') →
      (d' <= 700)%Q ∧ ((j < k)%nat → (d' < 700)%Q).
Proof.
  assert (H : scenic_search Demo.city Demo.city_sp Demo.counting
                (elements (major_nodes Demo.city)) 100 1000 0%nat
              = Ok (Some ([2; 5; 3; 4; 1], 700%Q), 40%nat))
    by (vm_compute; reflexivity).
  split; [exact H|].
  exact (proj2 (proj2 (scenic_search_keeps_first_longest Demo.city Demo.city_sp
           Demo.counting (elements (major_nodes Demo.city)) 100 1000 0%nat
           (Some ([2; 5; 3; 4; 1], 700%Q)) 40%nat H))).
Defined.

(** C6 as stated fails: on [twin] the pass 1 samples the in-window route
    1 → 2 of length 0 (the window is [0, 100]), yet the search answers
    absence, because a candidate is recorded only when its length exceeds the
    initial [best_distance = 0]. *)
Lemma scenic_search_drops_zero_length :
  ¬ keeps_longest_in_window Demo.twin Demo.twin_sp Demo.flip
      (elements (major_nodes Demo.twin)) 0 100 0.
Proof.
  intros Hclaim.
  specialize (Hclaim None 40%nat).
  assert (Hrun : scenic_search Demo.twin Demo.twin_sp Demo.flip
                   (elements (major_nodes Demo.twin)) 0 100 0%nat
                 = Ok (None, 40%nat)) by (vm_compute; reflexivity).
  specialize (Hclaim Hrun 1%nat ltac:(lia)).
  vm_compute in Hclaim. discriminate Hclaim.
Qed.

Example twin_in_window_sample :
  scenic_sample Demo.twin Demo.twin_sp Demo.flip
    (elements (major_nodes Demo.twin)) 0 100 0 1 = Some ([1; 2], 0%Q).
Proof. vm_compute. reflexivity. Qed.

(** ** Runs on the concrete networks *)

Lemma city_scenic_run :
  generate_scenic_route Demo.city Demo.city_sp Demo.counting 100 1000 0%nat
    = Ok (Some Demo.city_scenic_feature, 41%nat).
Proof. vm_compute. reflexivity. Defined.

Lemma city_loop_run :
  generate_loop_route Demo.city Demo.city_sp Demo.zeros (Some (0, 0)%Q) 5000 0%nat
    = Ok (Some Demo.city_loop_feature, 5%nat).
Proof. vm_compute. reflexivity. Defined.


Lemma city_loop_generated :
  generated Demo.city Demo.city_sp Demo.zeros Demo.city_loop_feature.
Proof.
  right. exists (Some (0, 0)%Q), 5000%Q, 0%nat, 5%nat. exact city_loop_run.
Defined.

(** ** Distances *)



(** ** LoopRouteBuilder *)

Lemma last_app_drop {A} (full seg : list A) :
  seg ≠ [] → last full = head seg → last (full ++ drop 1 seg) = last seg.
Proof.
  intros Hne Hjoin. destruct seg as [|x [|y seg]]; [done| |].
  - simpl in *. by rewrite app_nil_r.
  - simpl drop. by rewrite last_app_cons, last_cons_cons.
Qed.

Lemma head_app_nonempty {A} (full rest : list A) :
  is_Some (head full) → head (full ++ rest) = head full.
Proof. destruct full; [by intros [? ?]|done]. Qed.

Lemma walk_in_app_drop R (full seg : list node) :
  walk_in R full → walk_in R seg → last full = head seg →
  walk_in R (full ++ drop 1 seg).
Proof.
  intros Hfull Hseg Hjoin.
  destruct seg as [|x seg]; [by rewrite app_nil_r|]. simpl drop.
  induction full as [|a [|b full] IH]; simpl in *.
  - done.
  - injection Hjoin as ->. done.
  - destruct Hfull as [Hab Hfull]. split; [done|]. by apply IH.
Qed.

Section LoopBuilder.

Context (G : Graph) (sp : node → node → option (list node)) (tape : nat → nat).
Context (R : node → node → Prop).
Context (Hsp : ∀ s t p, sp s t = Some p →
                 head p = Some s ∧ last p = Some t ∧ walk_in R p).

(** The invariant of the stitching loop before it visits index [i]: the
    route assembled so far is a walk that starts at waypoint 0 and has
    reached waypoint [i]. *)
Lemma loop_segments_inv (wps : list node) (k i : nat) full total route d :
  (i + k)%nat = length wps →
  walk_in R full →
  (i = 0%nat → full = []) →
  ((0 < i)%nat → head full = wps !! 0%nat ∧
                 last full = wps !! (i mod length wps)%nat) →
  loop_segments G sp wps (seq i k) full total = Ok (Some (route, d)) →
  walk_in R route ∧
  ((0 < length wps)%nat → head route = wps !! 0%nat ∧ last route = wps !! 0%nat).
Proof.
  revert i full total. induction k as [|k IH]; intros i full total Hlen Hw H0 Hi H.
  - simpl in H. injection H as <- <-. split; [done|].
    intros Hn. destruct (Hi ltac:(lia)) as [Hh Hl]. split; [done|].
    rewrite Hl. replace i with (length wps) by lia. by rewrite Nat.Div0.mod_same.
  - simpl in H.
    destruct (wps !! i) as [s|] eqn:Hs; [|done].
    destruct (wps !! ((i + 1) mod length wps)%nat) as [e|] eqn:He; [|done].
    destruct (sp s e) as [seg|] eqn:Hseg; [|done].
    apply rbind_Ok in H as (dist & _ & H).
    destruct (Hsp _ _ _ Hseg) as (Hhead & Hlast & Hwalk).
    assert (Hne : seg ≠ []) by (by intros ->).
    assert (Hmod : (i mod length wps)%nat = i) by (apply Nat.mod_small; lia).
    eapply (IH (S i)) in H; [done|lia| | |].
    + destruct (Nat.ltb_spec 0 i) as [Hpos|Hzero].
      * apply walk_in_app_drop; [done..|].
        destruct (Hi Hpos) as [_ ->]. by rewrite Hmod, Hhead.
      * rewrite (H0 ltac:(lia)). done.
    + done.
    + intros _. replace (S i) with (i + 1)%nat by lia. rewrite He, <- Hlast.
      destruct (Nat.ltb_spec 0 i) as [Hpos|Hzero].
      * destruct (Hi Hpos) as [Hh Hl]. rewrite Hmod, Hs in Hl. split.
        -- rewrite <- Hh. apply head_app_nonempty.
           destruct full; [done|]. by eexists.
        -- apply last_app_drop; [done|]. by rewrite Hl, Hhead.
      * assert (i = 0%nat) as -> by lia. rewrite (H0 eq_refl). simpl.
        by rewrite Hhead, Hs.
Qed.

Lemma random_sample_Ok {A} (pool : list A) k st l st' :
  random_sample tape pool k st = Ok (l, st') →
  length l = k ∧ st' = (st + k)%nat.
Proof.
  revert pool st l. induction k as [|k IH]; intros pool st l H; simpl in H.
  - apply ret_Ok in H as [-> ->]. split; [done|lia].
  - destruct pool as [|a pool]; [done|].
    apply bind_Ok in H as (j & st1 & Hj & H).
    apply randbelow_Ok in Hj as [-> ->].
    destruct (_ !! _) as [x|]; [|done].
    apply bind_Ok in H as (rest & st2 & Hrest & H).
    apply ret_Ok in H as [-> ->].
    apply IH in Hrest as [<- ->]. split; [done|lia].
Qed.

Lemma loop_search_Ok center_point radius st route d st' :
  loop_search G sp tape center_point radius st = Ok (Some (route, d), st') →
  ∃ wps,
    random_sample tape (nearby_nodes G center_point radius) 4 st = Ok (wps, st') ∧
    length wps = 4%nat ∧ st' = (st + 4)%nat ∧
    loop_segments G sp wps (seq 0 4) [] 0%Q = Ok (Some (route, d)).
Proof.
  unfold loop_search. intros H.
  destruct (Nat.ltb_spec (length (nearby_nodes G center_point radius)) 4)
    as [Hlt|Hge].
  { by apply ret_Ok in H as [? _]. }
  rewrite Nat.min_l in H by done.
  apply bind_Ok in H as (wps & st1 & Hsample & H).
  apply lift_Ok in H as [H ->].
  pose proof (random_sample_Ok _ _ _ _ _ Hsample) as [Hlen ->].
  exists wps. rewrite Hlen in H. done.
Qed.

(** A stitched loop is a walk that starts and ends at the first waypoint. *)
Lemma loop_search_closed_walk center_point radius st route d st' :
  loop_search G sp tape center_point radius st = Ok (Some (route, d), st') →
  ∃ wps w,
    random_sample tape (nearby_nodes G center_point radius) 4 st = Ok (wps, st') ∧
    head wps = Some w ∧ head route = Some w ∧ last route = Some w ∧
    walk_in R route.
Proof.
  intros H. apply loop_search_Ok in H as (wps & Hsample & Hlen & -> & Hseg).
  apply (loop_segments_inv wps 4 0) in Hseg as [Hwalk Hends];
    [|by rewrite Hlen|done|done|lia].
  destruct (Hends ltac:(lia)) as [Hh Hl].
  destruct wps as [|w wps]; [done|].
  exists (w :: wps), w. done.
Qed.

End LoopBuilder.

(** ** The reference shortest-path primitive honours the contract *)

Section ReferenceSound.

Context (G : Graph).

Lemma walks_from_sound fuel s p :
  p ∈ walks_from G fuel s → head p = Some s ∧ is_walk G p.
Proof.
  revert s p. induction fuel as [|k IH]; intros s p Hp; simpl in Hp.
  - apply list_elem_of_singleton in Hp as ->. done.
  - apply elem_of_cons in Hp as [->|Hp]; [done|].
    apply list_elem_of_In, in_flat_map in Hp as (e & He & Hp).
    apply list_elem_of_In in He, Hp.
    case_bool_decide as Hu; [|by apply elem_of_nil in Hp].
    apply list_elem_of_fmap in Hp as (q & -> & Hq).
    apply IH in Hq as [Hhead Hwalk]. split; [done|].
    destruct q as [|v q]; [done|]. injection Hhead as ->.
    split; [|done]. apply Exists_exists. by exists e.
Qed.

Lemma shortest_of_elem p ps : shortest_of G p ps ∈ p :: ps.
Proof.
  revert p. induction ps as [|q ps IH]; intros p; simpl; [by left|].
  specialize (IH (if Qltb (walk_length G q) (walk_length G p) then q else p)).
  destruct (Qltb _ _).
  - apply elem_of_cons. by right.
  - apply elem_of_cons in IH as [->|IH]; apply elem_of_cons; [by left|].
    right. apply elem_of_cons. by right.
Qed.

Lemma reference_shortest_path_sound : sound_paths G (reference_shortest_path G).
Proof.
  intros s t p. unfold reference_shortest_path.
  destruct (filter _ _) as [|q qs] eqn:Hfilter; [done|].
  intros Hp. injection Hp as <-.
  pose proof (shortest_of_elem q qs) as Hel. rewrite <- Hfilter in Hel.
  apply list_elem_of_filter in Hel as [Hlast Hel].
  apply walks_from_sound in Hel as [Hhead Hwalk]. done.
Qed.

Lemma sound_paths_endpoints sp : sound_paths G sp → endpoint_paths sp.
Proof. intros H s t p Hp. by destruct (H s t p Hp) as (? & ? & _). Qed.

End ReferenceSound.

Lemma city_sp_sound : sound_paths Demo.city Demo.city_sp.
Proof. apply reference_shortest_path_sound. Defined.

Lemma city_sp_endpoints : endpoint_paths Demo.city_sp.
Proof. exact (sound_paths_endpoints Demo.city Demo.city_sp city_sp_sound). Defined.

(** ** Geometry of the returned features *)

Lemma walk_in_trivial (p : list node) : walk_in (λ _ _, True) p.
Proof. induction p as [|u [|v r] IH]; simpl; done. Qed.

Lemma Forall2_head {A B} (P : A → B → Prop) l k a :
  Forall2 P l k → head l = Some a → ∃ b, head k = Some b ∧ P a b.
Proof. intros [|x y l' k' Hxy _] Hh; [done|]. injection Hh as ->. by exists y. Qed.

Lemma Forall2_last {A B} (P : A → B → Prop) l k a :
  Forall2 P l k → last l = Some a → ∃ b, last k = Some b ∧ P a b.
Proof.
  induction 1 as [|x y l' k' Hxy Hrest IH]; [done|].
  destruct Hrest as [|x' y' l'' k'' Hxy' Hrest'].
  - simpl. intros Hl. injection Hl as ->. by exists y.
  - rewrite !last_cons_cons. apply IH.
Qed.

(** C7. For every feature returned by either generator, given a shortest-path
    primitive that answers with walks of the graph from source to target, the
    coordinate sequence has one pair per node of the route assembled by the
    search stage, in route order, and consecutive nodes of that route are
    adjacent in the graph, the junctions between loop segments included. *)
Theorem feature_geometry_follows_route (G : Graph) sp tape (f : Feature) :
  sound_paths G sp →
  generated G sp tape f →
  ∃ route,
    ((∃ min_distance max_distance st d st1,
        scenic_search G sp tape (elements (major_nodes G))
          min_distance max_distance st = Ok (Some (route, d), st1)) ∨
     (∃ center_point radius st d st1,
        loop_search G sp tape center_point radius st = Ok (Some (route, d), st1))) ∧
    follows G route (coordinates f) ∧
    length (coordinates f) = length route.
Proof.
  intros Hsound [(mn & mx & st & st' & H)|(c & radius & st & st' & H)].
  - apply generate_scenic_route_Ok in H as (_ & route & d & Hsearch & Hf).
    apply scenic_feature_Ok in Hf as (es & suffix & Hcoords & _ & _).
    apply route_coords_Ok in Hcoords.
    exists route. split; [left; by exists mn, mx, st, d, (st + 40)%nat|].
    split; [|symmetry; by eapply Forall2_length].
    split; [|done].
    pose proof (scenic_search_Ok _ _ _ _ _ _ _ _ _ Hsearch) as (_ & k & _ & Hk & _).
    apply scenic_sample_Some in Hk as (s & e & _ & _ & _ & Hsp & _).
    by destruct (Hsound _ _ _ Hsp) as (_ & _ & Hwalk).
  - apply generate_loop_route_Ok in H
      as (c' & st1 & route & d & st2 & _ & Hsearch & Hf).
    apply loop_feature_Ok in Hf as (suffix & Hcoords & _).
    apply route_coords_Ok in Hcoords.
    exists route. split; [right; by exists c', radius, st1, d, st2|].
    split; [|symmetry; by eapply Forall2_length].
    split; [|done].
    eapply (loop_search_closed_walk G sp tape (adjacent G)) in Hsearch
      as (wps & w & _ & _ & _ & _ & Hwalk); done.
Qed.

Lemma feature_geometry_follows_route_witness :
  ∃ route,
    ((∃ min_distance max_distance st d st1,
        scenic_search Demo.city Demo.city_sp Demo.zeros
          (elements (major_nodes Demo.city))
          min_distance max_distance st = Ok (Some (route, d), st1)) ∨
     (∃ center_point radius st d st1,
        loop_search Demo.city Demo.city_sp Demo.zeros center_point radius st
          = Ok (Some (route, d), st1))) ∧
    follows Demo.city route (coordinates Demo.city_loop_feature) ∧
    length (coordinates Demo.city_loop_feature) = length route.
Proof.
  exact (feature_geometry_follows_route Demo.city Demo.city_sp Demo.zeros
           Demo.city_loop_feature city_sp_sound city_loop_generated).
Defined.

(** C10. For every successful loop build, given a shortest-path primitive
    whose answers run from source to target, the assembled node sequence
    begins and ends at the first sampled waypoint, and the geometry of the
    feature begins and ends at the same coordinate. *)
Theorem loop_route_closed (G : Graph) sp tape (center_point : option (Q * Q))
    (radius : Q) (st : nat) (f : Feature) (st' : nat) :
  endpoint_paths sp →
  generate_loop_route G sp tape center_point radius st = Ok (Some f, st') →
  ∃ c st1 wps w route d,
    loop_center G tape center_point st = Ok (c, st1) ∧
    random_sample tape (nearby_nodes G c radius) 4 st1 = Ok (wps, (st1 + 4)%nat) ∧
    head wps = Some w ∧
    loop_search G sp tape c radius st1 = Ok (Some (route, d), (st1 + 4)%nat) ∧
    head route = Some w ∧ last route = Some w ∧
    is_Some (head (coordinates f)) ∧
    head (coordinates f) = last (coordinates f).
Proof.
  intros Hends H.
  apply generate_loop_route_Ok in H
    as (c & st1 & route & d & st2 & Hcenter & Hsearch & Hf).
  apply loop_feature_Ok in Hf as (suffix & Hcoords & _).
  apply route_coords_Ok in Hcoords.
  pose proof (loop_search_Ok _ _ _ _ _ _ _ _ _ Hsearch) as (_ & _ & _ & -> & _).
  pose proof Hsearch as Hclosed.
  eapply (loop_search_closed_walk G sp tape (λ _ _, True)) in Hclosed
    as (wps & w & Hsample & Hw & Hhead & Hlast & _).
  2:{ intros s t p Hp. destruct (Hends s t p Hp) as [? ?].
      split; [done|]. split; [done|]. apply walk_in_trivial. }
  destruct (Forall2_head _ _ _ _ Hcoords Hhead) as (b & Hb & Hcb).
  destruct (Forall2_last _ _ _ _ Hcoords Hlast) as (b' & Hb' & Hcb').
  exists c, st1, wps, w, route, d.
  do 6 (split; [done|]). split; [by exists b|].
  rewrite Hb, Hb'. congruence.
Qed.

Lemma loop_route_closed_witness :
  ∃ c st1 wps w route d,
    loop_center Demo.city Demo.zeros (Some (0, 0)%Q) 0%nat = Ok (c, st1) ∧
    random_sample Demo.zeros (nearby_nodes Demo.city c 5000) 4 st1
      = Ok (wps, (st1 + 4)%nat) ∧
    head wps = Some w ∧
    loop_search Demo.city Demo.city_sp Demo.zeros c 5000 st1
      = Ok (Some (route, d), (st1 + 4)%nat) ∧
    head route = Some w ∧ last route = Some w ∧
    is_Some (head (coordinates Demo.city_loop_feature)) ∧
    head (coordinates Demo.city_loop_feature)
      = last (coordinates Demo.city_loop_feature).
Proof.
  exact (loop_route_closed Demo.city Demo.city_sp Demo.zeros (Some (0, 0)%Q)
           5000 0%nat Demo.city_loop_feature 5%nat
           city_sp_endpoints city_loop_run).
Defined.

(** ** The loop's total length *)

(** C1 (the code departs from the claim). On [city] the waypoints drawn are
    A, B, C, D = 1, 2, 3, 4 and the four shortest-path segments measure 200,
    150, 300 and 250 m, 900 m in all, which is also the length of the
    assembled route; the builder reports 250 m, because each segment after
    the first is measured after its leading node has been dropped. *)
Theorem loop_total_misses_junction_edges :
  random_sample Demo.zeros (nearby_nodes Demo.city (0, 0)%Q 5000) 4 0%nat
    = Ok ([1; 2; 3; 4], 4%nat) ∧
  (Demo.city_sp 1 2 = Some [1; 2] ∧ route_distance Demo.city [1; 2] = Ok 200%Q) ∧
  (Demo.city_sp 2 3 = Some [2; 5; 3] ∧ route_distance Demo.city [2; 5; 3] = Ok 150%Q) ∧
  (Demo.city_sp 3 4 = Some [3; 4] ∧ route_distance Demo.city [3; 4] = Ok 300%Q) ∧
  (Demo.city_sp 4 1 = Some [4; 1] ∧ route_distance Demo.city [4; 1] = Ok 250%Q) ∧
  loop_search Demo.city Demo.city_sp Demo.zeros (0, 0)%Q 5000 0%nat
    = Ok (Some ([1; 2; 5; 3; 4; 1], 250%Q), 4%nat) ∧
  route_distance Demo.city [1; 2; 5; 3; 4; 1] = Ok 900%Q ∧
  generate_loop_route Demo.city Demo.city_sp Demo.zeros (Some (0, 0)%Q) 5000 0%nat
    = Ok (Some Demo.city_loop_feature, 5%nat) ∧
  (distance_km (properties Demo.city_loop_feature) == 0.25)%Q.
Proof. vm_compute. repeat split; reflexivity. Qed.

(** ** Road names *)

Lemma road_names_fold (es : list Edge) (acc : gset string) (s : string) :
  s ∈ foldl add_road_names acc es ↔ s ∈ acc ∨ encountered es s.
Proof.
  revert acc. induction es as [|e es IH]; intros acc; simpl.
  - split; [by left|]. intros [?|(e & He & _)]; [done|by apply elem_of_nil in He].
  - rewrite IH. unfold add_road_names, encountered. split.
    + intros [Hs|(e' & He' & Hn)].
      * destruct (name e) as [[n|l]|] eqn:Hname.
        -- apply elem_of_union in Hs as [Hs|Hs]; [by left|].
           apply elem_of_singleton in Hs as ->. right. exists e.
           split; [by left|by left].
        -- apply elem_of_union in Hs as [Hs|Hs]; [by left|].
           apply elem_of_list_to_set in Hs. right. exists e.
           split; [by left|]. right. by exists l.
        -- by left.
      * right. exists e'. split; [by right|done].
    + intros [Hs|(e' & He' & Hn)].
      * left. destruct (name e) as [[n|l]|]; [| |done];
          apply elem_of_union; by left.
      * apply elem_of_cons in He' as [->|He'].
        -- left. destruct Hn as [->|(l & -> & Hl)]; apply elem_of_union; right.
           ++ by apply elem_of_singleton.
           ++ by apply elem_of_list_to_set.
        -- right. by exists e'.
Qed.

Lemma road_names_spec (es : list Edge) (s : string) :
  s ∈ road_names es ↔ encountered es s.
Proof.
  unfold road_names. rewrite road_names_fold. split; [|by right].
  intros [Hs|Hs]; [by apply elem_of_empty in Hs|done].
Qed.

Lemma take_elements_spec (X : gset string) (n : nat) :
  NoDup (take n (elements X)) ∧
  length (take n (elements X)) = (n `min` size X)%nat ∧
  ∀ s, s ∈ take n (elements X) → s ∈ X.
Proof.
  split; [|split].
  - apply (sublist_NoDup _ (elements X)); [apply NoDup_elements|apply sublist_take].
  - by rewrite length_take.
  - intros s Hs. apply elem_of_elements.
    apply elem_of_take in Hs as (i & Hi & _). by eapply list_elem_of_lookup_2.
Qed.

(** C8 (as amended). Every feature of the scenic generator carries a [roads]
    list of distinct road names, each met on an edge of the route, whose
    length is the number of distinct names met capped at ten; the features
    of the loop generator carry no [roads] entry. *)
Theorem scenic_roads_capped (G : Graph) sp tape (f : Feature) :
  (scenic_generated G sp tape f →
   ∃ route route_edges l,
     route_coords G route = Ok (coordinates f) ∧
     get_route_edge_attributes G route = Ok route_edges ∧
     roads (properties f) = Some l ∧
     NoDup l ∧
     (∀ s, s ∈ l → encountered route_edges s) ∧
     (∀ s, encountered route_edges s ↔ s ∈ road_names route_edges) ∧
     length l = (10 `min` size (road_names route_edges))%nat ∧
     capped_roads f) ∧
  (loop_generated G sp tape f → roads (properties f) = None).
Proof.
  split.
  - intros (mn & mx & st & st' & H).
    apply generate_scenic_route_Ok in H as (_ & route & d & _ & Hf).
    apply scenic_feature_Ok in Hf as (es & suffix & Hcoords & Hes & Hprops).
    destruct (take_elements_spec (road_names es) 10) as (Hnd & Hlen & Hin).
    exists route, es, (take 10 (elements (road_names es))).
    rewrite Hprops. simpl.
    split; [done|]. split; [done|]. split; [done|]. split; [done|].
    split; [intros s Hs; by apply road_names_spec, Hin|].
    split; [intros s; by rewrite road_names_spec|].
    split; [done|].
    exists (take 10 (elements (road_names es))). rewrite Hprops. simpl.
    split; [done|]. split; [|done]. rewrite Hlen. lia.
  - intros (c & radius & st & st' & H).
    apply generate_loop_route_Ok in H as (c' & st1 & route & d & st2 & _ & _ & Hf).
    by apply loop_feature_Ok in Hf as (suffix & _ & ->).
Qed.

Lemma scenic_roads_capped_witness :
  (∃ route route_edges l,
     route_coords Demo.city route = Ok (coordinates Demo.city_scenic_feature) ∧
     get_route_edge_attributes Demo.city route = Ok route_edges ∧
     roads (properties Demo.city_scenic_feature) = Some l ∧
     NoDup l ∧
     (∀ s, s ∈ l → encountered route_edges s) ∧
     (∀ s, encountered route_edges s ↔ s ∈ road_names route_edges) ∧
     length l = (10 `min` size (road_names route_edges))%nat ∧
     capped_roads Demo.city_scenic_feature) ∧
  roads (properties Demo.city_loop_feature) = None.
Proof.
  split.
  - apply (proj1 (scenic_roads_capped Demo.city Demo.city_sp Demo.counting
                    Demo.city_scenic_feature)).
    exists 100%Q, 1000%Q, 0%nat, 41%nat. exact city_scenic_run.
  - apply (proj2 (scenic_roads_capped Demo.city Demo.city_sp Demo.zeros
                    Demo.city_loop_feature)).
    exists (Some (0, 0)%Q), 5000%Q, 0%nat, 5%nat. exact city_loop_run.
Defined.

(** C8 as stated fails: the circuit returned on [city] is a generated
    feature without a [roads] list. *)
Lemma loop_feature_without_roads :
  ¬ (∀ f, generated Demo.city Demo.city_sp Demo.zeros f → capped_roads f).
Proof.
  intros Hclaim.
  destruct (Hclaim Demo.city_loop_feature city_loop_generated) as (l & Hl & _).
  discriminate Hl.
Qed.

(** The cap at work: the scenic route on [city] meets twelve distinct names
    and lists ten of them. *)
Example city_scenic_roads_capped :
  size (road_names
          [Demo.mk_edge 2 5 100 "residential"
             (Some (TagList ["Oak Ave"; "Route 9"; "n3"; "n4"; "n5"; "n6";
                             "n7"; "n8"; "n9"; "n10"; "n11"])) None;
           Demo.mk_edge 3 4 300 "secondary" (Some (TagStr "Main St")) None])
    = 12%nat ∧
  length <$> roads (properties Demo.city_scenic_feature) = Some 10%nat.
Proof. vm_compute. done. Qed.

(** ** MajorNodeSelector *)

Lemma parse_digits_value (ds : string) (acc : N) :
  parse_digits acc ds
  = (acc * 10 ^ N.of_nat (String.length ds) + decimal_value ds)%N.
Proof.
  revert acc. induction ds as [|c r IH]; intros acc; simpl String.length.
  - simpl. lia.
  - simpl parse_digits. simpl decimal_value. rewrite IH.
    rewrite Nat2N.inj_succ, N.pow_succ_r'. lia.
Qed.

Lemma append_cons (c : ascii) (r s : string) :
  String c r +:+ s = String c (r +:+ s).
Proof. reflexivity. Qed.

Lemma append_nil (s : string) : EmptyString +:+ s = s.
Proof. reflexivity. Qed.

Lemma take_digits_run (ds post : string) :
  all_chars is_digit ds = true → starts_without_digit post →
  take_digits (ds +:+ post) = ds.
Proof.
  intros Hds Hpost. induction ds as [|c r IH].
  - rewrite append_nil. destruct post as [|c post]; [done|].
    simpl in *. by rewrite Hpost.
  - rewrite append_cons. simpl in *.
    apply andb_true_iff in Hds as [-> Hr]. by rewrite IH.
Qed.

Lemma take_digits_split (s : string) :
  ∃ post, s = take_digits s +:+ post ∧
          all_chars is_digit (take_digits s) = true ∧ starts_without_digit post.
Proof.
  induction s as [|c r (post & Heq & Hall & Hpost)]; simpl.
  - by exists EmptyString.
  - destruct (is_digit c) eqn:Hc.
    + exists post. rewrite append_cons. simpl. rewrite Hc, Hall.
      split; [by f_equal|done].
    + exists (String c r). by rewrite append_nil.
Qed.

Lemma extract_digits_spec (s ds : string) :
  extract_digits s = Some ds ↔
  ∃ pre post,
    s = pre +:+ ds +:+ post ∧
    all_chars (λ c, negb (is_digit c)) pre = true ∧
    ds ≠ EmptyString ∧ all_chars is_digit ds = true ∧
    starts_without_digit post.
Proof.
  split.
  - revert ds. induction s as [|c r IH]; intros ds H; simpl in H; [done|].
    destruct (is_digit c) eqn:Hc.
    + injection H as <-.
      destruct (take_digits_split (String c r)) as (post & Heq & Hall & Hpost).
      exists EmptyString, post. rewrite append_nil.
      simpl in Heq, Hall. rewrite Hc in Heq, Hall. simpl.
      split; [done|]. split; [done|]. split; [done|]. by split.
    + apply IH in H as (pre & post & -> & Hpre & Hne & Hall & Hpost).
      exists (String c pre), post. rewrite append_cons. simpl.
      by rewrite Hc, Hpre.
  - intros (pre & post & -> & Hpre & Hne & Hall & Hpost).
    induction pre as [|c pre IH].
    + rewrite append_nil. destruct ds as [|c r]; [done|].
      rewrite append_cons. simpl in *.
      apply andb_true_iff in Hall as [Hc Hr]. rewrite Hc.
      by rewrite take_digits_run.
    + rewrite append_cons. simpl in *.
      apply andb_true_iff in Hpre as [Hc Hpre].
      apply negb_true_iff in Hc. rewrite Hc. by apply IH.
Qed.

Lemma maxspeed_value_spec (m : option speed) (n : N) :
  maxspeed_value m = Some n ↔ first_embedded_int (astype_str m) n.
Proof.
  unfold maxspeed_value, first_embedded_int. split.
  - destruct (extract_digits _) as [ds|] eqn:Hds; [|done].
    simpl. intros Hn. injection Hn as <-.
    apply extract_digits_spec in Hds as (pre & post & Hrest).
    exists pre, ds, post. rewrite parse_digits_value. simpl.
    destruct Hrest as (? & ? & ? & ? & ?). done.
  - intros (pre & ds & post & Heq & Hpre & Hne & Hall & Hpost & ->).
    assert (Hds : extract_digits (astype_str m) = Some ds).
    { apply extract_digits_spec. by exists pre, post. }
    rewrite Hds. simpl. by rewrite parse_digits_value.
Qed.




Lemma major_nodes_fold (es : list Edge) (acc : gset node) (n : node) :
  n ∈ foldl (λ acc e, acc ∪ {[eu e]} ∪ {[ev e]}) acc es ↔
  n ∈ acc ∨ ∃ e, e ∈ es ∧ (n = eu e ∨ n = ev e).
Proof.
  revert acc. induction es as [|e es IH]; intros acc; simpl.
  - split; [by left|]. intros [?|(e & He & _)]; [done|by apply elem_of_nil in He].
  - rewrite IH, !elem_of_union, !elem_of_singleton. split.
    + intros [[[?|?]|?]|(e' & He' & Hn)].
      * by left.
      * right. exists e. split; [by left|by left].
      * right. exists e. split; [by left|by right].
      * right. exists e'. split; [by right|done].
    + intros [?|(e' & He' & Hn)]; [by left; left; left|].
      apply elem_of_cons in He' as [->|He'].
      * destruct Hn; [by left; left; right|by left; right].
      * right. by exists e'.
Qed.

Lemma major_nodes_spec (g : Graph) (n : node) :
  n ∈ major_nodes g ↔
  ∃ e, e ∈ edges g ∧ is_major e = true ∧ (n = eu e ∨ n = ev e).
Proof.
  unfold major_nodes, major_edges. rewrite major_nodes_fold. split.
  - intros [Hn|(e & He & Hn)]; [by apply elem_of_empty in Hn|].
    apply list_elem_of_filter in He as [Hmaj He]. by exists e.
  - intros (e & He & Hmaj & Hn). right. exists e.
    split; [by apply list_elem_of_filter|done].
Qed.



Example village_edge_not_major :
  maxspeed_value (Some (SpeedStr "25 mph")) = Some 25%N ∧
  maxspeed_value (Some (SpeedStr "50 mph")) = Some 50%N ∧
  maxspeed_value (Some (SpeedNum 45)) = Some 45%N ∧
  maxspeed_value (Some (SpeedStr "signals; 25;65")) = Some 25%N ∧
  maxspeed_value None = None.
Proof. vm_compute. done. Qed.

Example city_major_nodes :
  elements (major_nodes Demo.city) = [5; 3; 4; 2; 1].
Proof. vm_compute. reflexivity. Qed.

(** ** CollectionGenerator *)

Section Collection.

Context (G : Graph) (sp : node → node → option (list node)) (tape : nat → nat).

Lemma attempts_length i k st os st' :
  attempts G sp tape i k st os st' → length os = k.
Proof. induction 1; simpl; congruence. Qed.

Lemma collect_routes_Ok k i features st features' st' :
  collect_routes G sp tape (seq i k) features st = Ok (features', st') ↔
  ∃ outcomes,
    attempts G sp tape i k st outcomes st' ∧
    features' = features ++ omap id outcomes.
Proof.
  revert i features st. induction k as [|k IH]; intros i features st; simpl.
  - rewrite ret_Ok. split.
    + intros [-> ->]. exists []. split; [constructor|by rewrite app_nil_r].
    + intros (os & Hos & ->). inversion Hos; subst. by rewrite app_nil_r.
  - rewrite bind_Ok. split.
    + intros (o & st1 & Hatt & Hrest).
      apply IH in Hrest as (os & Hos & ->).
      exists (o :: os). split; [by econstructor|].
      destruct o as [f|]; simpl; [by rewrite <- app_assoc|done].
    + intros (os & Hos & ->). inversion Hos as [|? ? ? o st1 os' ? Hatt Hrest]; subst.
      exists o, st1. split; [done|]. apply IH. exists os'. split; [done|].
      destruct o as [f|]; simpl; [by rewrite <- app_assoc|done].
Qed.

Lemma length_omap_le {A} (os : list (option A)) :
  (length (omap id os) <= length os)%nat.
Proof. induction os as [|[a|] os IH]; cbn in *; lia. Qed.

End Collection.

(** ** The generators return on loaded networks

    On a well-formed network, with a shortest-path primitive that honours its
    contract, no call of the generators raises. *)

Section Totality.

Context (G : Graph) (sp : node → node → option (list node)) (tape : nat → nat).
Context (Hwf : well_formed G) (Hsp : sound_paths G sp).

Abbreviation known := (λ n : node, n ∈ nid <$> nodes G).

Lemma node_coord_total n : known n → ∃ c, node_coord G n = Ok c.
Proof.
  intros Hn. unfold node_coord.
  apply list_elem_of_fmap in Hn as (nd & -> & Hnd).
  destruct (list_find (λ nd', nid nd' = nid nd) (nodes G)) as [[i nd']|] eqn:Hfind.
  - by eexists.
  - apply list_find_None in Hfind.
    by eapply (proj1 (Forall_forall _ _) Hfind nd) in Hnd.
Qed.

Lemma adjacent_known u v : adjacent G u v → known u ∧ known v.
Proof.
  intros Hadj. apply Exists_exists in Hadj as (e & He & <- & <-).
  destruct Hwf as (_ & _ & Hedges). by apply Hedges.
Qed.

Lemma walk_known p : is_walk G p → (∀ n, head p = Some n → known n) →
  Forall known p.
Proof.
  induction p as [|u [|v r] IH]; intros Hwalk Hhead.
  - constructor.
  - constructor; [by apply Hhead|constructor].
  - destruct Hwalk as [Hadj Hwalk]. constructor; [by apply Hhead|].
    apply IH; [done|]. intros n Hn. injection Hn as <-.
    by apply adjacent_known in Hadj as [_ ?].
Qed.

Lemma sp_known s t p : sp s t = Some p → known s → Forall known p.
Proof.
  intros Hp Hs. destruct (Hsp s t p Hp) as (Hhead & _ & Hwalk).
  apply walk_known; [done|]. intros n Hn. congruence.
Qed.

Lemma sp_two_nodes s t p : sp s t = Some p → s ≠ t → (2 <= length p)%nat.
Proof.
  intros Hp Hne. destruct (Hsp s t p Hp) as (Hhead & Hlast & _).
  destruct p as [|a [|b r]]; simpl in *; [done| |lia]. congruence.
Qed.

Lemma route_coords_total p :
  Forall known p → ∃ cs, route_coords G p = Ok cs ∧ length cs = length p.
Proof.
  induction 1 as [|n r Hn _ (cs & Hcs & Hlen)]; simpl.
  - by exists [].
  - destruct (node_coord_total n Hn) as (c & ->). rewrite Hcs. simpl.
    exists (c :: cs). by rewrite <- Hlen.
Qed.

Lemma cheapest_edge_total u v : adjacent G u v → ∃ e, cheapest_edge G u v = Ok e.
Proof.
  intros Hadj. unfold cheapest_edge, get_edge_data.
  apply Exists_exists in Hadj as (e & He & Hu & Hv).
  destruct (filter _ _) as [|e' es] eqn:Hf; [|by eexists].
  assert (e ∈ filter (λ e, eu e = u ∧ ev e = v) (edges G))
    by (by apply list_elem_of_filter).
  rewrite Hf in *. by apply elem_of_nil in H.
Qed.

Lemma route_edges_total p :
  is_walk G p → ∃ es, get_route_edge_attributes G p = Ok es.
Proof.
  induction p as [|u [|v r] IH]; intros Hwalk.
  - by exists [].
  - by exists [].
  - destruct Hwalk as [Hadj Hwalk].
    destruct (cheapest_edge_total u v Hadj) as (e & He).
    destruct (IH Hwalk) as (es & Hes).
    exists (e :: es). simpl in *. by rewrite He, Hes.
Qed.

Lemma route_distance_total p : is_walk G p → ∃ d, route_distance G p = Ok d.
Proof.
  intros Hwalk. destruct (route_edges_total p Hwalk) as (es & Hes).
  unfold route_distance. rewrite Hes. by eexists.
Qed.

Lemma is_walk_drop p : is_walk G p → is_walk G (drop 1 p).
Proof. destruct p as [|u [|v r]]; simpl; [done..|]. by intros [_ ?]. Qed.

Lemma random_choice_total {A} (l : list A) st :
  l ≠ [] → ∃ x, random_choice tape l st = Ok (x, S st) ∧ x ∈ l.
Proof.
  intros Hne. unfold random_choice. destruct l as [|a l]; [done|].
  unfold bind, randbelow.
  destruct (lookup_lt_is_Some_2 (a :: l) (tape st mod length (a :: l))%nat)
    as [x Hx].
  { apply Nat.mod_upper_bound. simpl. lia. }
  rewrite Hx. exists x. split; [done|]. by eapply list_elem_of_lookup_2.
Qed.

Lemma randint_total a b st : ∃ z, randint tape a b st = Ok (z, S st).
Proof. unfold randint, bind, randbelow, ret. by eexists. Qed.

(** *** The scenic generator *)

Lemma major_nodes_known n : n ∈ elements (major_nodes G) → known n.
Proof.
  intros Hn. apply elem_of_elements, major_nodes_spec in Hn
    as (e & He & _ & Hn).
  destruct Hwf as (_ & _ & Hedges). destruct (Hedges e He) as [Hu Hv].
  by destruct Hn as [->| ->].
Qed.

Lemma scenic_attempt_total mnl min_distance max_distance st :
  mnl ≠ [] →
  ∃ cand, scenic_attempt G sp tape mnl min_distance max_distance st
          = Ok (cand, (st + 2)%nat).
Proof.
  intros Hne. unfold scenic_attempt, bind.
  destruct (random_choice_total mnl st Hne) as (s & -> & _).
  destruct (random_choice_total mnl (S st) Hne) as (e & -> & _).
  replace (S (S st)) with (st + 2)%nat by lia.
  case_bool_decide; [by eexists|].
  destruct (sp s e) as [route|] eqn:Hroute; [|by eexists].
  destruct (Hsp s e route Hroute) as (_ & _ & Hwalk).
  destruct (route_distance_total route Hwalk) as (d & ->). simpl.
  destruct (_ && _); by eexists.
Qed.

Lemma scenic_loop_total n mnl min_distance max_distance best st :
  mnl ≠ [] →
  ∃ best', scenic_loop G sp tape n mnl min_distance max_distance best st
           = Ok (best', (st + 2 * n)%nat).
Proof.
  intros Hne. revert best st. induction n as [|n IH]; intros best st; simpl.
  - exists best. unfold ret. do 2 f_equal. lia.
  - unfold bind.
    destruct (scenic_attempt_total mnl min_distance max_distance st Hne)
      as (cand & ->).
    destruct (IH (scenic_update best cand) (st + 2)%nat) as (best' & ->).
    exists best'. do 2 f_equal. lia.
Qed.

Lemma scenic_search_total mnl min_distance max_distance st :
  mnl ≠ [] →
  ∃ res, scenic_search G sp tape mnl min_distance max_distance st
         = Ok (res, (st + 40)%nat).
Proof.
  intros Hne. unfold scenic_search, bind.
  destruct (scenic_loop_total 20 mnl min_distance max_distance (None, 0%Q) st Hne)
    as ([best d] & ->).
  destruct best as [[|n r]|]; by eexists.
Qed.

Lemma LineString_total (coords : list (Q * Q)) :
  (2 <= length coords)%nat → LineString coords = Ok coords.
Proof. destruct coords as [|c [|c' cs]]; simpl; [lia..|done]. Qed.

Lemma scenic_feature_total route d st :
  is_walk G route → Forall known route → (2 <= length route)%nat →
  ∃ f, scenic_feature G tape route d st = Ok (f, S st).
Proof.
  intros Hwalk Hknown Hlen. unfold scenic_feature, bind, lift.
  destruct (route_coords_total route Hknown) as (cs & -> & Hcs).
  rewrite LineString_total by lia.
  destruct (route_edges_total route Hwalk) as (es & ->).
  destruct (randint_total 1000 9999 st) as (z & ->).
  by eexists.
Qed.

Lemma generate_scenic_route_total min_distance max_distance st :
  ∃ o st', generate_scenic_route G sp tape min_distance max_distance st
           = Ok (o, st').
Proof.
  unfold generate_scenic_route.
  destruct (Nat.ltb_spec (length (elements (major_nodes G))) 2) as [_|Hge].
  { by exists None, st. }
  assert (Hne : elements (major_nodes G) ≠ []).
  { intros Heq. rewrite Heq in Hge. simpl in Hge. lia. }
  destruct (scenic_search_total _ min_distance max_distance st Hne)
    as (res & Hsearch).
  unfold bind at 1. rewrite Hsearch.
  destruct res as [[route d]|]; [|by exists None, (st + 40)%nat].
  apply scenic_search_Ok in Hsearch as (_ & k & _ & Hk & _).
  apply scenic_sample_Some in Hk as (s & e & Hs & _ & Hse & Hroute & _).
  destruct (Hsp s e route Hroute) as (_ & _ & Hwalk).
  destruct (scenic_feature_total route d (st + 40)%nat Hwalk) as (f & Hf).
  { eapply sp_known; [done|]. by apply major_nodes_known. }
  { by eapply sp_two_nodes. }
  unfold bind. rewrite Hf. by eexists _, _.
Qed.

(** *** The loop generator *)

Lemma random_sample_total {A} (pool : list A) k st :
  (k <= length pool)%nat →
  ∃ l, random_sample tape pool k st = Ok (l, (st + k)%nat) ∧
       (∀ x, x ∈ l → x ∈ pool) ∧ (NoDup pool → NoDup l).
Proof.
  revert pool st. induction k as [|k IH]; intros pool st Hk; simpl.
  - exists []. unfold ret. split; [do 2 f_equal; lia|].
    split; [by intros x Hx%elem_of_nil|constructor].
  - destruct pool as [|a pool]; [simpl in Hk; lia|].
    set (j := (tape st mod length (a :: pool))%nat).
    assert (Hj : (j < length (a :: pool))%nat).
    { apply Nat.mod_upper_bound. simpl. lia. }
    destruct (lookup_lt_is_Some_2 _ _ Hj) as [x Hx].
    unfold bind, randbelow. fold j. rewrite Hx.
    destruct (IH (delete j (a :: pool)) (S st)) as (rest & -> & Hsub & Hnd).
    { rewrite length_delete by by eexists. simpl in *. lia. }
    exists (x :: rest). split; [unfold ret; do 2 f_equal; lia|].
    assert (Hdel : ∀ y, y ∈ delete j (a :: pool) → y ∈ a :: pool).
    { intros y Hy. eapply elem_of_sublist; [done|apply sublist_delete]. }
    split.
    + intros y [->|Hy]%elem_of_cons; [by eapply list_elem_of_lookup_2|].
      by apply Hdel, Hsub.
    + intros Hpool. apply NoDup_cons. split.
      * intros Hin%Hsub. rewrite delete_take_drop in Hin.
        rewrite <- (take_drop_middle _ _ _ Hx) in Hpool.
        apply NoDup_app in Hpool as (_ & Hdisj & Hrest).
        apply NoDup_cons in Hrest as [Hnotin _].
        apply elem_of_app in Hin as [Hin|Hin]; [|done].
        apply (Hdisj x Hin). by left.
      * apply Hnd. eapply sublist_NoDup; [done|apply sublist_delete].
Qed.

Lemma nearby_nodes_known center_point radius n :
  n ∈ nearby_nodes G center_point radius → known n.
Proof.
  unfold nearby_nodes. intros Hn. eapply elem_of_sublist; [done|].
  apply fmap_sublist, sublist_filter.
Qed.

Lemma nearby_nodes_NoDup center_point radius :
  NoDup (nearby_nodes G center_point radius).
Proof.
  destruct Hwf as (Hnd & _). eapply sublist_NoDup; [done|].
  apply fmap_sublist, sublist_filter.
Qed.

Lemma loop_segments_total (wps : list node) k i full total :
  (i + k)%nat = length wps → (2 <= length wps)%nat →
  Forall known wps → NoDup wps →
  Forall known full → ((0 < i)%nat → (2 <= length full)%nat) →
  ∃ r, loop_segments G sp wps (seq i k) full total = Ok r ∧
       ∀ route d, r = Some (route, d) →
         Forall known route ∧ (2 <= length route)%nat.
Proof.
  intros Hlen Hn Hknown Hnd. revert i full total Hlen.
  induction k as [|k IH]; intros i full total Hlen Hfull Hi; simpl.
  - eexists. split; [done|]. intros route d Heq. injection Heq as <- <-.
    split; [done|]. apply Hi. lia.
  - destruct (lookup_lt_is_Some_2 wps i ltac:(lia)) as [s Hs].
    destruct (lookup_lt_is_Some_2 wps ((i + 1) mod length wps)%nat) as [e He].
    { apply Nat.mod_upper_bound. lia. }
    rewrite Hs, He.
    destruct (sp s e) as [seg|] eqn:Hseg; [|by eexists].
    assert (Hsk : known s).
    { eapply (proj1 (Forall_forall _ _) Hknown). by eapply list_elem_of_lookup_2. }
    pose proof (sp_known s e seg Hseg Hsk) as Hsegk.
    destruct (Hsp s e seg Hseg) as (_ & _ & Hwalk).
    set (seg' := if (0 <? i)%nat then drop 1 seg else seg).
    assert (Hwalk' : is_walk G seg').
    { unfold seg'. destruct (0 <? i)%nat; [by apply is_walk_drop|done]. }
    assert (Hsegk' : Forall known seg').
    { unfold seg'. destruct (0 <? i)%nat; [by apply Forall_drop|done]. }
    destruct (route_distance_total seg' Hwalk') as (dist & Hdist).
    rewrite Hdist. simpl.
    apply (IH (S i)); [lia|by apply Forall_app|].
    intros _. rewrite length_app.
    destruct (Nat.ltb_spec 0 i) as [Hpos|Hzero].
    + specialize (Hi Hpos). lia.
    + assert (i = 0%nat) as -> by lia. unfold seg'. simpl.
      assert (Hne : s ≠ e).
      { intros ->. simpl in He. rewrite Nat.mod_small in He by lia.
        pose proof (NoDup_lookup _ _ _ _ Hnd Hs He). lia. }
      pose proof (sp_two_nodes s e seg Hseg Hne). lia.
Qed.

Lemma loop_search_total center_point radius st :
  ∃ r st', loop_search G sp tape center_point radius st = Ok (r, st') ∧
           ∀ route d, r = Some (route, d) →
             Forall known route ∧ (2 <= length route)%nat.
Proof.
  unfold loop_search.
  destruct (Nat.ltb_spec (length (nearby_nodes G center_point radius)) 4)
    as [_|Hge].
  { exists None, st. by split. }
  rewrite Nat.min_l by done.
  destruct (random_sample_total (nearby_nodes G center_point radius) 4 st Hge)
    as (wps & Hsample & Hsub & Hnd).
  pose proof (random_sample_Ok tape _ _ _ _ _ Hsample) as [Hlen _].
  destruct (loop_segments_total wps 4 0 [] 0%Q) as (r & Hr & Hroute).
  { by rewrite Hlen. }
  { lia. }
  { apply Forall_forall. intros n Hn. eapply nearby_nodes_known. by apply Hsub. }
  { apply Hnd, nearby_nodes_NoDup. }
  { constructor. }
  { lia. }
  exists r, (st + 4)%nat. split; [|done].
  unfold bind. rewrite Hsample, Hlen. unfold lift. by rewrite Hr.
Qed.

Lemma loop_feature_total center_point route d st :
  Forall known route → (2 <= length route)%nat →
  ∃ f, loop_feature G tape center_point route d st = Ok (f, S st).
Proof.
  intros Hknown Hlen. unfold loop_feature, bind, lift.
  destruct (route_coords_total route Hknown) as (cs & -> & Hcs).
  rewrite LineString_total by lia.
  destruct (randint_total 1000 9999 st) as (z & ->).
  by eexists.
Qed.

Lemma loop_center_total center_point st :
  ∃ c st', loop_center G tape center_point st = Ok (c, st').
Proof.
  destruct center_point as [c|]; simpl; [by exists c, st|].
  destruct Hwf as (_ & Hne & _).
  destruct (random_choice_total (nid <$> nodes G) st) as (n & Hn & Hin).
  { by destruct (nodes G). }
  destruct (node_coord_total n Hin) as (c & Hc).
  exists c, (S st). unfold bind, lift. by rewrite Hn, Hc.
Qed.

Lemma generate_loop_route_total center_point radius st :
  ∃ o st', generate_loop_route G sp tape center_point radius st = Ok (o, st').
Proof.
  unfold generate_loop_route.
  destruct (loop_center_total center_point st) as (c & st1 & Hc).
  destruct (loop_search_total c radius st1) as (r & st2 & Hr & Hroute).
  unfold bind at 1. rewrite Hc. unfold bind at 1. rewrite Hr.
  destruct r as [[route d]|]; [|by exists None, st2].
  destruct (Hroute route d eq_refl) as [Hknown Hlen].
  destruct (loop_feature_total c route d st2 Hknown Hlen) as (f & Hf).
  unfold bind. rewrite Hf. by eexists _, _.
Qed.

(** *** The collection generator *)

Lemma route_attempt_total i st :
  ∃ o st', route_attempt G sp tape i st = Ok (o, st').
Proof.
  unfold route_attempt. destruct (i mod 2 =? 0)%nat.
  - destruct (randint_total (-5000) 10000 st) as (j1 & Hj1).
    destruct (randint_total (-10000) 20000 (S st)) as (j2 & Hj2).
    unfold bind at 1. rewrite Hj1. unfold bind at 1. rewrite Hj2.
    apply generate_scenic_route_total.
  - destruct (randint_total 1000 5000 st) as (j & Hj).
    unfold bind at 1. rewrite Hj.
    apply generate_loop_route_total.
Qed.

Lemma attempts_total k i st :
  ∃ outcomes st', attempts G sp tape i k st outcomes st'.
Proof.
  revert i st. induction k as [|k IH]; intros i st.
  - exists [], st. constructor.
  - destruct (route_attempt_total i st) as (o & st1 & Ho).
    destruct (IH (S i) st1) as (os & st2 & Hos).
    exists (o :: os), st2. by econstructor.
Qed.

End Totality.

Lemma city_well_formed : well_formed Demo.city.
Proof.
  split; [|split].
  - apply (bool_decide_unpack _). vm_compute. exact I.
  - discriminate.
  - apply Forall_forall. apply (bool_decide_unpack _). vm_compute. exact I.
Defined.

(** C3. The collection generator attempts every index of [0, count) once,
    with the scenic generator at even indices and the loop generator at odd
    ones (each with freshly drawn parameters); it returns exactly when every
    attempt returns, and then its features are the successful outcomes in
    index order, a failed attempt leaving a gap and nothing else, so that
    between 0 and [count] features come back; on a well-formed network with
    a shortest-path primitive that honours its contract it always returns. *)
Theorem collection_one_attempt_per_index (G : Graph) sp tape
    (num_routes : Z) (st : nat) :
  (∀ i st0, Nat.Even i →
     route_attempt G sp tape i st0 =
     (let* j1 := randint tape (-5000) 10000 in
      let* j2 := randint tape (-10000) 20000 in
      generate_scenic_route G sp tape (inject_Z (15000 + j1))
        (inject_Z (50000 + j2))) st0) ∧
  (∀ i st0, Nat.Odd i →
     route_attempt G sp tape i st0 =
     (let* j := randint tape 1000 5000 in
      generate_loop_route G sp tape None (inject_Z (3000 + j))) st0) ∧
  (∀ features st',
     generate_multiple_routes G sp tape num_routes st = Ok (features, st') ↔
     ∃ outcomes,
       attempts G sp tape 0 (Z.to_nat num_routes) st outcomes st' ∧
       length outcomes = Z.to_nat num_routes ∧
       features = omap id outcomes) ∧
  (∀ features st',
     generate_multiple_routes G sp tape num_routes st = Ok (features, st') →
     (length features <= Z.to_nat num_routes)%nat) ∧
  (well_formed G → sound_paths G sp →
   ∃ features st',
     generate_multiple_routes G sp tape num_routes st = Ok (features, st')).
Proof.
  assert (Hchar : ∀ features st',
    generate_multiple_routes G sp tape num_routes st = Ok (features, st') ↔
    ∃ outcomes,
      attempts G sp tape 0 (Z.to_nat num_routes) st outcomes st' ∧
      length outcomes = Z.to_nat num_routes ∧
      features = omap id outcomes).
  { intros features st'. unfold generate_multiple_routes.
    rewrite collect_routes_Ok. split.
    - intros (os & Hos & ->). exists os. split; [done|].
      split; [by eapply attempts_length|done].
    - intros (os & Hos & _ & ->). by exists os. }
  split; [|split; [|split; [exact Hchar|split]]].
  - intros i st0 Hi. unfold route_attempt.
    apply Nat.Even_EvenT in Hi as [k ->].
    by rewrite Nat.mul_comm, Nat.Div0.mod_mul.
  - intros i st0 Hi. unfold route_attempt.
    apply Nat.Odd_OddT in Hi as [k ->].
    replace (2 * k + 1)%nat with (1 + k * 2)%nat by lia.
    by rewrite Nat.Div0.mod_add.
  - intros features st' H. apply Hchar in H as (os & _ & <- & ->).
    apply length_omap_le.
  - intros Hwf Hsp.
    destruct (attempts_total G sp tape Hwf Hsp (Z.to_nat num_routes) 0 st)
      as (os & st' & Hos).
    exists (omap id os), st'. apply Hchar. exists os.
    split; [done|]. split; [by eapply attempts_length|done].
Qed.

Lemma collection_one_attempt_per_index_witness :
  ∃ features st',
    generate_multiple_routes Demo.city Demo.city_sp Demo.counting 3 0%nat
      = Ok (features, st').
Proof.
  exact (proj2 (proj2 (proj2 (proj2
    (collection_one_attempt_per_index Demo.city Demo.city_sp Demo.counting
       3 0%nat)))) city_well_formed city_sp_sound).
Defined.

(** Three routes requested on [city]: the attempts at indices 0 and 2 fail,
    the attempt at index 1 succeeds, and the collection holds that one
    feature. *)
Example city_collection_trace :
  attempts Demo.city Demo.city_sp Demo.counting 0 3 0
    [None; Some Demo.city_collection_feature; None] 91 ∧
  generate_multiple_routes Demo.city Demo.city_sp Demo.counting 3 0%nat
    = Ok ([Demo.city_collection_feature], 91%nat).
Proof.
  split.
  - apply (attempts_cons _ _ _ 0 2 0 None 42); [vm_compute; reflexivity|].
    apply (attempts_cons _ _ _ 1 1 42 (Some Demo.city_collection_feature) 49);
      [vm_compute; reflexivity|].
    apply (attempts_cons _ _ _ 2 0 49 None 91); [vm_compute; reflexivity|].
    constructor.
  - vm_compute. reflexivity.
Qed.

(** * Further properties of the generators *)

(** ** The neighbourhood of a loop *)

Lemma filter_none {A} (P : A → Prop) `{∀ x, Decision (P x)} (l : list A) :
  (∀ x, x ∈ l → ¬ P x) → filter P l = [].
Proof.
  induction l as [|a l IH]; intros Hl; [done|].
  rewrite filter_cons. destruct (decide (P a)) as [Ha|_].
  - destruct (Hl a); [by left|done].
  - apply IH. intros x Hx. apply Hl. by right.
Qed.

Lemma within_radius_spec (c : Q * Q) (radius : Q) (nd : Node) :
  within_radius c radius nd = true ↔
  (0 <= radius)%Q ∧
  (((nx nd - c.1) * (nx nd - c.1) + (ny nd - c.2) * (ny nd - c.2))
     * (111000 * 111000) <= radius * radius)%Q.
Proof.
  unfold within_radius. by rewrite andb_true_iff, !Qleb_le.
Qed.

Lemma nearby_nodes_elem (G : Graph) (c : Q * Q) (radius : Q) (n : node) :
  n ∈ nearby_nodes G c radius ↔
  ∃ nd, nd ∈ nodes G ∧ nid nd = n ∧ within_radius c radius nd = true.
Proof.
  unfold nearby_nodes. rewrite list_elem_of_fmap. split.
  - intros (nd & -> & Hnd). apply list_elem_of_filter in Hnd as [Hin Hnd].
    by exists nd.
  - intros (nd & Hnd & <- & Hin). exists nd. split; [done|].
    by apply list_elem_of_filter.
Qed.

Lemma nearby_nodes_length (G : Graph) (c : Q * Q) (radius : Q) :
  (length (nearby_nodes G c radius) <= length (nodes G))%nat.
Proof.
  unfold nearby_nodes. rewrite length_fmap. apply length_filter.
Qed.

(** X1. With fewer than four nodes within the radius the loop generator
    answers absence without sampling; a network of fewer than four nodes has
    no loop for any centre and any radius. *)
Theorem loop_needs_four_nodes (G : Graph) sp tape (c : Q * Q) (radius : Q)
    (st : nat) :
  ((length (nearby_nodes G c radius) < 4)%nat →
   generate_loop_route G sp tape (Some c) radius st = Ok (None, st)) ∧
  ((length (nodes G) < 4)%nat →
   generate_loop_route G sp tape (Some c) radius st = Ok (None, st)).
Proof.
  assert (Hfew : (length (nearby_nodes G c radius) < 4)%nat →
    generate_loop_route G sp tape (Some c) radius st = Ok (None, st)).
  { intros Hlt. unfold generate_loop_route, loop_center, loop_search, bind, ret.
    by destruct (Nat.ltb_spec (length (nearby_nodes G c radius)) 4); [|lia]. }
  split; [done|]. intros Hlt. apply Hfew.
  pose proof (nearby_nodes_length G c radius). lia.
Qed.

Lemma loop_needs_four_nodes_witness :
  generate_loop_route Demo.village (reference_shortest_path Demo.village)
    Demo.counting (Some (0, 0)%Q) 1000000 3%nat = Ok (None, 3%nat).
Proof.
  apply (proj2 (loop_needs_four_nodes Demo.village
                  (reference_shortest_path Demo.village) Demo.counting
                  (0, 0)%Q 1000000 3%nat)).
  vm_compute. lia.
Defined.

(** X2. The neighbourhood grows with the radius, is empty for a negative
    radius, and for a non-negative radius holds every node located at the
    centre itself. *)
Theorem nearby_nodes_radius (G : Graph) (c : Q * Q) (radius radius' : Q) :
  ((radius < 0)%Q → nearby_nodes G c radius = []) ∧
  ((radius <= radius')%Q →
   ∀ n, n ∈ nearby_nodes G c radius → n ∈ nearby_nodes G c radius') ∧
  ((0 <= radius)%Q →
   ∀ nd, nd ∈ nodes G → (nx nd == c.1)%Q → (ny nd == c.2)%Q →
         nid nd ∈ nearby_nodes G c radius).
Proof.
  split; [|split].
  - intros Hneg. unfold nearby_nodes.
    rewrite filter_none; [done|].
    intros nd _ Hin. apply within_radius_spec in Hin as [Hpos _].
    by apply Qle_not_lt in Hpos.
  - intros Hle n Hn. apply nearby_nodes_elem in Hn as (nd & Hnd & <- & Hin).
    apply nearby_nodes_elem. exists nd. split; [done|]. split; [done|].
    apply within_radius_spec in Hin as [Hpos Hd].
    apply within_radius_spec. split; [by eapply Qle_trans|].
    eapply Qle_trans; [done|].
    apply Qmult_le_compat_nonneg; by split.
  - intros Hpos nd Hnd Hx Hy. apply nearby_nodes_elem.
    exists nd. split; [done|]. split; [done|].
    apply within_radius_spec. split; [done|].
    rewrite Hx, Hy.
    assert (Hz : ((c.1 - c.1) * (c.1 - c.1) + (c.2 - c.2) * (c.2 - c.2) == 0)%Q)
      by ring.
    rewrite Hz, Qmult_0_l. by apply Qmult_le_0_compat.
Qed.

Lemma nearby_nodes_radius_witness :
  nearby_nodes Demo.city (0, 0)%Q (-1) = [] ∧
  (∀ n, n ∈ nearby_nodes Demo.city (0, 0)%Q 120 →
        n ∈ nearby_nodes Demo.city (0, 0)%Q 5000) ∧
  1 ∈ nearby_nodes Demo.city (0, 0)%Q 120.
Proof.
  destruct (nearby_nodes_radius Demo.city (0, 0)%Q (-1) 0) as (Hneg & _ & _).
  destruct (nearby_nodes_radius Demo.city (0, 0)%Q 120 5000) as (_ & Hmono & Hc).
  split; [apply Hneg; reflexivity|].
  split; [apply Hmono; discriminate|].
  apply (Hc ltac:(discriminate) {| nid := 1; nx := 0; ny := 0 |});
    [by left|reflexivity..].
Defined.

(** ** How a loop is stitched *)

Lemma loop_search_unfold (G : Graph) sp tape (c : Q * Q) (radius : Q)
    (st : nat) (route : list node) (d : Q) (st' : nat) :
  loop_search G sp tape c radius st = Ok (Some (route, d), st') →
  ∃ w0 w1 w2 w3 s0 s1 s2 s3 d0 d1 d2 d3,
    random_sample tape (nearby_nodes G c radius) 4 st
      = Ok ([w0; w1; w2; w3], st') ∧
    (sp w0 w1 = Some s0 ∧ sp w1 w2 = Some s1 ∧
     sp w2 w3 = Some s2 ∧ sp w3 w0 = Some s3) ∧
    (route_distance G s0 = Ok d0 ∧ route_distance G (drop 1 s1) = Ok d1 ∧
     route_distance G (drop 1 s2) = Ok d2 ∧ route_distance G (drop 1 s3) = Ok d3) ∧
    route = s0 ++ drop 1 s1 ++ drop 1 s2 ++ drop 1 s3 ∧
    d = (0 + d0 + d1 + d2 + d3)%Q.
Proof.
  intros H. apply loop_search_Ok in H as (wps & Hsample & Hlen & -> & Hseg).
  destruct wps as [|w0 [|w1 [|w2 [|w3 [|w4 wps]]]]]; try done.
  cbn in Hseg.
  destruct (sp w0 w1) as [s0|] eqn:H0; [|done].
  apply rbind_Ok in Hseg as (d0 & Hd0 & Hseg).
  destruct (sp w1 w2) as [s1|] eqn:H1; [|done].
  apply rbind_Ok in Hseg as (d1 & Hd1 & Hseg).
  destruct (sp w2 w3) as [s2|] eqn:H2; [|done].
  apply rbind_Ok in Hseg as (d2 & Hd2 & Hseg).
  destruct (sp w3 w0) as [s3|] eqn:H3; [|done].
  apply rbind_Ok in Hseg as (d3 & Hd3 & Hseg).
  injection Hseg as <- <-.
  exists w0, w1, w2, w3, s0, s1, s2, s3, d0, d1, d2, d3.
  split; [done|]. split; [done|]. split; [done|].
  split; [|done]. by rewrite <- !app_assoc.
Qed.

(** X3. A loop is returned only when all four consecutive waypoint pairs,
    the wrap-around pair included, have a path (there is no partial loop).
    The route is then the first segment followed by the other three without
    their leading node, and the reported length is the sum of the lengths of
    those four pieces as they are appended. *)
Theorem loop_search_assembly (G : Graph) sp tape (c : Q * Q) (radius : Q)
    (st : nat) (route : list node) (d : Q) (st' : nat) :
  loop_search G sp tape c radius st = Ok (Some (route, d), st') →
  ∃ w0 w1 w2 w3 s0 s1 s2 s3 d0 d1 d2 d3,
    random_sample tape (nearby_nodes G c radius) 4 st
      = Ok ([w0; w1; w2; w3], st') ∧
    (sp w0 w1 = Some s0 ∧ sp w1 w2 = Some s1 ∧
     sp w2 w3 = Some s2 ∧ sp w3 w0 = Some s3) ∧
    (route_distance G s0 = Ok d0 ∧ route_distance G (drop 1 s1) = Ok d1 ∧
     route_distance G (drop 1 s2) = Ok d2 ∧ route_distance G (drop 1 s3) = Ok d3) ∧
    route = s0 ++ drop 1 s1 ++ drop 1 s2 ++ drop 1 s3 ∧
    d = (0 + d0 + d1 + d2 + d3)%Q.
Proof.
  intros H. apply loop_search_Ok in H as (wps & Hsample & Hlen & -> & Hseg).
  destruct wps as [|w0 [|w1 [|w2 [|w3 [|w4 wps]]]]]; try done.
  cbn in Hseg.
  destruct (sp w0 w1) as [s0|] eqn:H0; [|done].
  apply rbind_Ok in Hseg as (d0 & Hd0 & Hseg).
  destruct (sp w1 w2) as [s1|] eqn:H1; [|done].
  apply rbind_Ok in Hseg as (d1 & Hd1 & Hseg).
  destruct (sp w2 w3) as [s2|] eqn:H2; [|done].
  apply rbind_Ok in Hseg as (d2 & Hd2 & Hseg).
  destruct (sp w3 w0) as [s3|] eqn:H3; [|done].
  apply rbind_Ok in Hseg as (d3 & Hd3 & Hseg).
  injection Hseg as <- <-.
  exists w0, w1, w2, w3, s0, s1, s2, s3, d0, d1, d2, d3.
  split; [done|]. split; [done|]. split; [done|].
  split; [|done]. by rewrite <- !app_assoc.
Qed.

Lemma city_loop_search_run :
  loop_search Demo.city Demo.city_sp Demo.zeros (0, 0)%Q 5000 0%nat
    = Ok (Some ([1; 2; 5; 3; 4; 1], 250%Q), 4%nat).
Proof. vm_compute. reflexivity. Defined.

Lemma loop_search_assembly_witness :
  ∃ w0 w1 w2 w3 s0 s1 s2 s3 d0 d1 d2 d3,
    random_sample Demo.zeros (nearby_nodes Demo.city (0, 0)%Q 5000) 4 0%nat
      = Ok ([w0; w1; w2; w3], 4%nat) ∧
    (Demo.city_sp w0 w1 = Some s0 ∧ Demo.city_sp w1 w2 = Some s1 ∧
     Demo.city_sp w2 w3 = Some s2 ∧ Demo.city_sp w3 w0 = Some s3) ∧
    (route_distance Demo.city s0 = Ok d0 ∧
     route_distance Demo.city (drop 1 s1) = Ok d1 ∧
     route_distance Demo.city (drop 1 s2) = Ok d2 ∧
     route_distance Demo.city (drop 1 s3) = Ok d3) ∧
    [1; 2; 5; 3; 4; 1] = s0 ++ drop 1 s1 ++ drop 1 s2 ++ drop 1 s3 ∧
    250%Q = (0 + d0 + d1 + d2 + d3)%Q.
Proof.
  exact (loop_search_assembly Demo.city Demo.city_sp Demo.zeros (0, 0)%Q 5000
           0%nat [1; 2; 5; 3; 4; 1] 250%Q 4%nat city_loop_search_run).
Defined.

Lemma elem_of_last {A} (l : list A) (x : A) : last l = Some x → x ∈ l.
Proof.
  intros H. apply last_Some in H as (l' & ->).
  apply elem_of_app. right. by left.
Qed.

Lemma elem_of_head {A} (l : list A) (x : A) : head l = Some x → x ∈ l.
Proof. destruct l; [done|]. intros H. injection H as ->. by left. Qed.

Lemma last_in_join {A} (pre seg : list A) (x y : A) :
  head seg = Some x → last seg = Some y → x ∈ pre → y ∈ pre ++ drop 1 seg.
Proof.
  intros Hh Hl Hx. destruct seg as [|a [|b seg]]; [done| |].
  - simpl in *. rewrite app_nil_r. congruence.
  - simpl drop. apply elem_of_app. right. apply elem_of_last.
    by rewrite last_cons_cons in Hl.
Qed.

Lemma random_sample_elem {A} tape (pool : list A) k st l st' :
  random_sample tape pool k st = Ok (l, st') → ∀ x, x ∈ l → x ∈ pool.
Proof.
  revert pool st l st'.
  induction k as [|k IH]; intros pool st l st' H x Hx; simpl in H.
  - apply ret_Ok in H as [-> _]. by apply elem_of_nil in Hx.
  - destruct pool as [|a pool]; [done|].
    apply bind_Ok in H as (j & st1 & Hj & H).
    destruct (_ !! _) as [y|] eqn:Hy; [|done].
    apply bind_Ok in H as (rest & st2 & Hrest & H).
    apply ret_Ok in H as [-> _].
    apply elem_of_cons in Hx as [->|Hx].
    + by eapply list_elem_of_lookup_2.
    + apply (IH _ _ _ _ Hrest) in Hx.
      eapply elem_of_sublist; [exact Hx|apply sublist_delete].
Qed.

(** X4. Given a shortest-path primitive whose answers run from source to
    target, the loop passes through each of the four sampled waypoints, and
    those waypoints are nodes within the radius of the centre. *)
Theorem loop_visits_waypoints (G : Graph) sp tape (c : Q * Q) (radius : Q)
    (st : nat) (route : list node) (d : Q) (st' : nat) :
  endpoint_paths sp →
  loop_search G sp tape c radius st = Ok (Some (route, d), st') →
  ∃ wps,
    random_sample tape (nearby_nodes G c radius) 4 st = Ok (wps, st') ∧
    length wps = 4%nat ∧
    (∀ w, w ∈ wps → w ∈ route) ∧
    (∀ w, w ∈ wps → w ∈ nearby_nodes G c radius).
Proof.
  intros Hends H.
  apply loop_search_unfold in H
    as (w0 & w1 & w2 & w3 & s0 & s1 & s2 & s3 & d0 & d1 & d2 & d3
        & Hsample & (H0 & H1 & H2 & H3) & _ & -> & _).
  destruct (Hends _ _ _ H0) as [Hh0 Hl0].
  destruct (Hends _ _ _ H1) as [Hh1 Hl1].
  destruct (Hends _ _ _ H2) as [Hh2 Hl2].
  exists [w0; w1; w2; w3]. split; [done|]. split; [done|].
  assert (Hw0 : w0 ∈ s0) by by apply elem_of_head.
  assert (Hw1 : w1 ∈ s0) by by apply elem_of_last.
  assert (Hw2 : w2 ∈ s0 ++ drop 1 s1) by by eapply last_in_join.
  assert (Hw3 : w3 ∈ (s0 ++ drop 1 s1) ++ drop 1 s2) by by eapply last_in_join.
  split.
  - intros w Hw. rewrite !app_assoc.
    repeat (apply elem_of_cons in Hw as [->|Hw]); [..|by apply elem_of_nil in Hw].
    + apply elem_of_app. left. apply elem_of_app. left.
      apply elem_of_app. by left.
    + apply elem_of_app. left. apply elem_of_app. left.
      apply elem_of_app. by left.
    + apply elem_of_app. left. apply elem_of_app. by left.
    + apply elem_of_app. by left.
  - intros w Hw. by eapply random_sample_elem.
Qed.

Lemma loop_visits_waypoints_witness :
  ∃ wps,
    random_sample Demo.zeros (nearby_nodes Demo.city (0, 0)%Q 5000) 4 0%nat
      = Ok (wps, 4%nat) ∧
    length wps = 4%nat ∧
    (∀ w, w ∈ wps → w ∈ [1; 2; 5; 3; 4; 1]) ∧
    (∀ w, w ∈ wps → w ∈ nearby_nodes Demo.city (0, 0)%Q 5000).
Proof.
  exact (loop_visits_waypoints Demo.city Demo.city_sp Demo.zeros (0, 0)%Q 5000
           0%nat [1; 2; 5; 3; 4; 1] 250%Q 4%nat
           city_sp_endpoints city_loop_search_run).
Defined.

(** ** What a returned feature looks like *)

Lemma randint_range tape (a b : Z) st z st' :
  (a <= b)%Z → randint tape a b st = Ok (z, st') → (a <= z <= b)%Z.
Proof.
  intros Hab H. apply randint_Ok in H as [-> _].
  pose proof (Nat.mod_upper_bound (tape st) (Z.to_nat (b - a + 1))). lia.
Qed.

Lemma route_distance_short (G : Graph) (route : list node) (d : Q) :
  route_distance G route = Ok d → (0 < d)%Q → (2 <= length route)%nat.
Proof.
  intros Hd Hpos. destruct route as [|u [|v r]]; [..|simpl; lia].
  - injection Hd as <-. by apply Qlt_irrefl in Hpos.
  - injection Hd as <-. by apply Qlt_irrefl in Hpos.
Qed.

Lemma scenic_feature_inv (G : Graph) tape route d st f st' :
  scenic_feature G tape route d st = Ok (f, st') →
  ∃ route_edges suffix,
    route_coords G route = Ok (coordinates f) ∧
    length (coordinates f) ≠ 1%nat ∧
    get_route_edge_attributes G route = Ok route_edges ∧
    randint tape 1000 9999 st = Ok (suffix, st') ∧
    properties f =
      {| pname := ("NJ Scenic Route #", suffix);
         description_km := d / 1000;
         distance_km := d / 1000;
         distance_miles := d / 1609.34;
         roads := Some (take 10 (elements (road_names route_edges)));
         ptype := "ai_generated";
         difficulty := Some (calculate_difficulty route_edges);
         loop := None;
         center := None |}.
Proof.
  unfold scenic_feature. intros H.
  apply bind_Ok in H as (coords & st1 & Hc & H). apply lift_Ok in Hc as [Hc ->].
  apply bind_Ok in H as (line & st1 & Hl & H). apply lift_Ok in Hl as [Hl ->].
  apply LineString_Ok in Hl as [-> Hlen].
  apply bind_Ok in H as (es & st1 & He & H). apply lift_Ok in He as [He ->].
  apply bind_Ok in H as (suffix & st1 & Hs & H).
  apply ret_Ok in H as [-> ->]. by exists es, suffix.
Qed.

Lemma loop_feature_inv (G : Graph) tape c route d st f st' :
  loop_feature G tape c route d st = Ok (f, st') →
  ∃ suffix,
    route_coords G route = Ok (coordinates f) ∧
    length (coordinates f) ≠ 1%nat ∧
    randint tape 1000 9999 st = Ok (suffix, st') ∧
    properties f =
      {| pname := ("NJ Circuit #", suffix);
         description_km := d / 1000;
         distance_km := d / 1000;
         distance_miles := d / 1609.34;
         roads := None;
         ptype := "ai_loop";
         difficulty := None;
         loop := Some true;
         center := Some c |}.
Proof.
  unfold loop_feature. intros H.
  apply bind_Ok in H as (coords & st1 & Hc & H). apply lift_Ok in Hc as [Hc ->].
  apply bind_Ok in H as (line & st1 & Hl & H). apply lift_Ok in Hl as [Hl ->].
  apply LineString_Ok in Hl as [-> Hlen].
  apply bind_Ok in H as (suffix & st1 & Hs & H).
  apply ret_Ok in H as [-> ->]. by exists suffix.
Qed.

Lemma Qdiv_1000_pos (d : Q) : (0 < d)%Q → (0 < d / 1000)%Q.
Proof.
  intros Hd. apply Qlt_shift_div_l; [reflexivity|]. by rewrite Qmult_0_l.
Qed.

(** X5. A scenic feature is returned after exactly 41 draws; its route is the
    shortest path between two distinct major nodes, has at least two nodes and
    a positive length, and the geometry has one coordinate per node. *)
Theorem scenic_route_endpoints (G : Graph) sp tape
    (min_distance max_distance : Q) (st : nat) (f : Feature) (st' : nat) :
  generate_scenic_route G sp tape min_distance max_distance st = Ok (Some f, st') →
  st' = (st + 41)%nat ∧
  ∃ route d s e,
    scenic_search G sp tape (elements (major_nodes G)) min_distance max_distance st
      = Ok (Some (route, d), (st + 40)%nat) ∧
    s ∈ major_nodes G ∧ e ∈ major_nodes G ∧ s ≠ e ∧ sp s e = Some route ∧
    (0 < d)%Q ∧ (2 <= length route)%nat ∧
    length (coordinates f) = length route ∧
    (0 < distance_km (properties f))%Q.
Proof.
  intros H. apply generate_scenic_route_Ok in H as (_ & route & d & Hsearch & Hf).
  pose proof (scenic_search_Ok _ _ _ _ _ _ _ _ _ Hsearch)
    as (_ & k & _ & Hk & Hpos & _).
  apply scenic_sample_Some in Hk as (s & e & Hs & He & Hne & Hroute & Hd & _).
  apply scenic_feature_inv in Hf as (es & suffix & Hcoords & _ & _ & Hz & Hprops).
  apply randint_Ok in Hz as [_ ->]. split; [lia|].
  exists route, d, s, e. rewrite Hprops. simpl.
  split; [done|]. split; [by apply elem_of_elements|].
  split; [by apply elem_of_elements|]. split; [done|]. split; [done|].
  split; [done|]. split; [by eapply route_distance_short|].
  split; [|by apply Qdiv_1000_pos].
  apply route_coords_Ok in Hcoords. symmetry. by eapply Forall2_length.
Qed.

Lemma scenic_route_endpoints_witness :
  41%nat = (0 + 41)%nat ∧
  ∃ route d s e,
    scenic_search Demo.city Demo.city_sp Demo.counting
      (elements (major_nodes Demo.city)) 100 1000 0%nat
      = Ok (Some (route, d), (0 + 40)%nat) ∧
    s ∈ major_nodes Demo.city ∧ e ∈ major_nodes Demo.city ∧ s ≠ e ∧
    Demo.city_sp s e = Some route ∧
    (0 < d)%Q ∧ (2 <= length route)%nat ∧
    length (coordinates Demo.city_scenic_feature) = length route ∧
    (0 < distance_km (properties Demo.city_scenic_feature))%Q.
Proof.
  exact (scenic_route_endpoints Demo.city Demo.city_sp Demo.counting 100 1000
           0%nat Demo.city_scenic_feature 41%nat city_scenic_run).
Defined.

(** X6. The geometry of a loop feature never consists of a single
    coordinate, and it has at least two coordinates whenever the
    shortest-path primitive answers with paths from source to target. *)
Theorem loop_geometry_length (G : Graph) sp tape (f : Feature) :
  loop_generated G sp tape f →
  length (coordinates f) ≠ 1%nat ∧
  (endpoint_paths sp → (2 <= length (coordinates f))%nat).
Proof.
  intros (cp & radius & st & st' & H).
  apply generate_loop_route_Ok in H
    as (c & st1 & route & d & st2 & _ & Hsearch & Hf).
  apply loop_feature_inv in Hf as (suffix & Hcoords & Hlen & _).
  split; [done|]. intros Hends.
  apply loop_search_unfold in Hsearch
    as (w0 & w1 & w2 & w3 & s0 & s1 & s2 & s3 & d0 & d1 & d2 & d3
        & _ & (H0 & _) & _ & -> & _).
  destruct (Hends _ _ _ H0) as [Hh0 _].
  apply route_coords_Ok, Forall2_length in Hcoords.
  rewrite length_app in Hcoords. destruct s0 as [|a s0]; [done|].
  simpl in Hcoords. lia.
Qed.

Lemma loop_geometry_length_witness :
  length (coordinates Demo.city_loop_feature) ≠ 1%nat ∧
  (endpoint_paths Demo.city_sp →
   (2 <= length (coordinates Demo.city_loop_feature))%nat).
Proof.
  apply (loop_geometry_length Demo.city Demo.city_sp Demo.zeros).
  exists (Some (0, 0)%Q), 5000%Q, 0%nat, 5%nat. exact city_loop_run.
Defined.

Lemma calculate_difficulty_label (route_edges : list Edge) :
  calculate_difficulty route_edges ∈ ["easy"; "medium"; "hard"; "extreme"].
Proof.
  unfold calculate_difficulty.
  repeat (match goal with |- context [if ?b then _ else _] => destruct b end);
    repeat (first [by left | right]).
Qed.






(** ** The classifier on integers *)

Lemma Qltb_ratio (n : Z) (d : positive) (x t : Z) :
  (0 < t)%Z →
  Qltb (n # d) (inject_Z x / inject_Z t) = (n * t <? Z.pos d * x)%Z.
Proof.
  intros Ht. destruct t as [|tp|tp]; [lia| |lia].
  apply eq_true_iff_eq. rewrite Qltb_lt, Z.ltb_lt.
  unfold Qlt, Qdiv, Qmult, Qinv, inject_Z. simpl. lia.
Qed.

(** X9. The classifier compares whole counts: for a route of [t > 0] edges
    with [m] motorway (or motorway_link) edges and [p] primary (or trunk)
    edges it answers extreme when [2m > t], else hard when [5(m+p) > 3t],
    else medium when [5p > 2t], else easy; for a route without edges it
    answers medium.  The answer is always one of the four labels. *)
Theorem difficulty_integer_thresholds (route_edges : list Edge) :
  let hs := edge_highway <$> route_edges in
  let m := count_in ["motorway"; "motorway_link"] hs in
  let p := count_in ["primary"; "trunk"] hs in
  let t := Z.of_nat (length route_edges) in
  calculate_difficulty route_edges =
    (if (t =? 0)%Z then "medium"
     else if (t <? 2 * m)%Z then "extreme"
     else if (3 * t <? 5 * (m + p))%Z then "hard"
     else if (2 * t <? 5 * p)%Z then "medium"
     else "easy") ∧
  calculate_difficulty route_edges ∈ ["easy"; "medium"; "hard"; "extreme"] ∧
  (0 <= m)%Z ∧ (0 <= p)%Z ∧ (m + p <= t)%Z.
Proof.
  intros hs m p t. split; [|split; [apply calculate_difficulty_label|]].
  - unfold calculate_difficulty. fold hs m p.
    replace (Z.of_nat (length hs)) with t by (unfold hs, t; by rewrite length_fmap).
    destruct (Z.eqb_spec t 0) as [|Hne]; [done|].
    assert (Ht : (0 < t)%Z) by (unfold t in *; lia).
    rewrite !Qltb_ratio by done.
    replace (5 * t <? 10 * m)%Z with (t <? 2 * m)%Z
      by (apply eq_true_iff_eq; rewrite !Z.ltb_lt; lia).
    replace (6 * t <? 10 * (m + p))%Z with (3 * t <? 5 * (m + p))%Z
      by (apply eq_true_iff_eq; rewrite !Z.ltb_lt; lia).
    replace (4 * t <? 10 * p)%Z with (2 * t <? 5 * p)%Z
      by (apply eq_true_iff_eq; rewrite !Z.ltb_lt; lia).
    done.
  - unfold m, p, t, count_in.
    assert (Hdisj : (length (filter (λ h, tag_in ["motorway"; "motorway_link"] h = true) hs)
             + length (filter (λ h, tag_in ["primary"; "trunk"] h = true) hs)
             <= length hs)%nat).
    { clear. induction hs as [|h hs IH]; [done|].
      rewrite !filter_cons. simpl length.
      destruct (decide (tag_in ["motorway"; "motorway_link"] h = true)) as [H1|H1];
        destruct (decide (tag_in ["primary"; "trunk"] h = true)) as [H2|H2];
        simpl length; try lia.
      exfalso. destruct h as [s|l]; [|done]. simpl in H1, H2.
      apply bool_decide_eq_true in H1, H2.
      rewrite !elem_of_cons, elem_of_nil in H1, H2.
      destruct H1 as [->|[->|[]]]; destruct H2 as [?|[?|[]]]; discriminate. }
    unfold hs in Hdisj at 3. rewrite length_fmap in Hdisj. lia.
Qed.

(** X10. The classifier does not depend on the order of the edges. *)
Theorem difficulty_order_irrelevant (es1 es2 : list Edge) :
  es1 ≡ₚ es2 → calculate_difficulty es1 = calculate_difficulty es2.
Proof.
  intros Hperm. unfold calculate_difficulty.
  assert (Hhs : edge_highway <$> es1 ≡ₚ edge_highway <$> es2)
    by by apply fmap_Permutation.
  assert (Hcount : ∀ classes,
    count_in classes (edge_highway <$> es1) = count_in classes (edge_highway <$> es2)).
  { intros classes. unfold count_in. f_equal.
    apply Permutation_length. by apply filter_Permutation. }
  by rewrite !Hcount, (Permutation_length Hhs).
Qed.

Lemma difficulty_order_irrelevant_witness :
  calculate_difficulty
    [Demo.mk_edge 1 2 10 "motorway" None None;
     Demo.mk_edge 2 3 10 "residential" None None;
     Demo.mk_edge 3 4 10 "motorway" None None] =
  calculate_difficulty
    [Demo.mk_edge 2 3 10 "residential" None None;
     Demo.mk_edge 1 2 10 "motorway" None None;
     Demo.mk_edge 3 4 10 "motorway" None None].
Proof.
  apply difficulty_order_irrelevant. apply perm_swap.
Defined.

(** ** What a collection holds *)

Lemma mod2_even (i : nat) : (i mod 2 =? 0)%nat = Nat.even i.
Proof.
  apply eq_true_iff_eq. rewrite Nat.eqb_eq, Nat.even_spec.
  unfold Nat.Even. apply Nat.Div0.mod_divides.
Qed.

(** A successful attempt at an even index is a scenic search in a window
    drawn from [10000, 25000] x [40000, 70000]; at an odd index it is a loop
    around a random node with a radius drawn from [4000, 8000]. *)
Lemma route_attempt_Some (G : Graph) sp tape (i st : nat) (f : Feature) (st' : nat) :
  route_attempt G sp tape i st = Ok (Some f, st') →
  (Nat.even i = true ∧
   ∃ j1 j2, (-5000 <= j1 <= 10000)%Z ∧ (-10000 <= j2 <= 20000)%Z ∧
     generate_scenic_route G sp tape (inject_Z (15000 + j1))
       (inject_Z (50000 + j2)) (st + 2)%nat = Ok (Some f, st')) ∨
  (Nat.even i = false ∧
   ∃ j, (1000 <= j <= 5000)%Z ∧
     generate_loop_route G sp tape None (inject_Z (3000 + j)) (S st)
       = Ok (Some f, st')).
Proof.
  unfold route_attempt. rewrite mod2_even. destruct (Nat.even i); intros H.
  - left. split; [done|].
    apply bind_Ok in H as (j1 & st1 & Hj1 & H).
    apply bind_Ok in H as (j2 & st2 & Hj2 & H).
    pose proof (randint_range tape (-5000) 10000 _ _ _ ltac:(lia) Hj1).
    pose proof (randint_range tape (-10000) 20000 _ _ _ ltac:(lia) Hj2).
    apply randint_Ok in Hj1 as [_ ->]. apply randint_Ok in Hj2 as [_ ->].
    exists j1, j2. replace (st + 2)%nat with (S (S st)) by lia. done.
  - right. split; [done|].
    apply bind_Ok in H as (j & st1 & Hj & H).
    pose proof (randint_range tape 1000 5000 _ _ _ ltac:(lia) Hj).
    apply randint_Ok in Hj as [_ ->]. by exists j.
Qed.




Lemma city_collection_run :
  generate_multiple_routes Demo.city Demo.city_sp Demo.counting 3 0%nat
    = Ok ([Demo.city_collection_feature], 91%nat).
Proof. vm_compute. reflexivity. Defined.


Lemma route_attempt_ptype (G : Graph) sp tape (i st : nat) (f : Feature) (st' : nat) :
  route_attempt G sp tape i st = Ok (Some f, st') →
  ptype (properties f) = if Nat.even i then "ai_generated" else "ai_loop".
Proof.
  intros H. apply route_attempt_Some in H
    as [(-> & j1 & j2 & _ & _ & Hrun)|(-> & r & _ & Hrun)].
  - apply generate_scenic_route_Ok in Hrun as (_ & route & d & _ & Hfeat).
    by apply scenic_feature_Ok in Hfeat as (es & suffix & _ & _ & ->).
  - apply generate_loop_route_Ok in Hrun
      as (c & st2 & route & d & st3 & _ & _ & Hfeat).
    by apply loop_feature_Ok in Hfeat as (suffix & _ & ->).
Qed.

Lemma attempts_mix (G : Graph) sp tape (i k st : nat) os st' :
  attempts G sp tape i k st os st' →
  (2 * length (filter (λ f, ptype (properties f) = "ai_generated") (omap id os))
     <= k + (if Nat.even i then 1 else 0))%nat ∧
  (2 * length (filter (λ f, ptype (properties f) = "ai_loop") (omap id os))
     <= k + (if Nat.even i then 0 else 1))%nat.
Proof.
  induction 1 as [|i k st o st1 os st2 Hatt Hrest IH].
  - simpl. split; lia.
  - rewrite Nat.even_succ, <- Nat.negb_even in IH.
    destruct o as [f|].
    + change (omap id (Some f :: os)) with (f :: omap id os).
      apply route_attempt_ptype in Hatt.
      rewrite !filter_cons, Hatt.
      destruct (Nat.even i); simpl in IH;
        repeat case_decide; try done; simpl length; lia.
    + change (omap id (None :: os)) with (omap id os).
      destruct (Nat.even i); simpl in IH; lia.
Qed.

(** X12. Of [count] routes requested, at most every other one, starting with
    the first, is a scenic feature and at most every other one, starting with
    the second, is a loop feature: a collection holds at most ceil(count/2)
    features of type "ai_generated" and at most floor(count/2) of type
    "ai_loop".  A count of zero or less gives an empty collection without a
    single draw. *)
Theorem collection_mix (G : Graph) sp tape (num_routes : Z) (st : nat)
    (features : list Feature) (st' : nat) :
  generate_multiple_routes G sp tape num_routes st = Ok (features, st') →
  (2 * length (filter (λ f, ptype (properties f) = "ai_generated") features)
     <= Z.to_nat num_routes + 1)%nat ∧
  (2 * length (filter (λ f, ptype (properties f) = "ai_loop") features)
     <= Z.to_nat num_routes)%nat ∧
  ((num_routes <= 0)%Z → features = [] ∧ st' = st).
Proof.
  unfold generate_multiple_routes. intros H.
  pose proof H as Hrun.
  apply collect_routes_Ok in H as (os & Hos & ->). simpl.
  pose proof (attempts_mix _ _ _ _ _ _ _ _ Hos) as [Hs Hl]. simpl in Hs, Hl.
  split; [done|]. split; [lia|].
  intros Hn. replace (Z.to_nat num_routes) with 0%nat in Hos by lia.
  inversion Hos; subst. done.
Qed.

Lemma collection_mix_witness :
  (2 * length (filter (λ f, ptype (properties f) = "ai_generated")
                 [Demo.city_collection_feature]) <= Z.to_nat 3 + 1)%nat ∧
  (2 * length (filter (λ f, ptype (properties f) = "ai_loop")
                 [Demo.city_collection_feature]) <= Z.to_nat 3)%nat ∧
  ((3 <= 0)%Z → [Demo.city_collection_feature] = [] ∧ 91%nat = 0%nat).
Proof.
  exact (collection_mix Demo.city Demo.city_sp Demo.counting 3 0%nat
           [Demo.city_collection_feature] 91%nat city_collection_run).
Defined.

(** ** The number of draws *)

Lemma generate_scenic_route_cursor (G : Graph) sp tape mn mx st o st' :
  generate_scenic_route G sp tape mn mx st = Ok (o, st') →
  (o = None ∧ (length (elements (major_nodes G)) < 2)%nat ∧ st' = st) ∨
  (o = None ∧ (2 <= length (elements (major_nodes G)))%nat ∧ st' = (st + 40)%nat) ∨
  (is_Some o ∧ st' = (st + 41)%nat).
Proof.
  unfold generate_scenic_route. intros H.
  destruct (Nat.ltb_spec (length (elements (major_nodes G))) 2) as [Hlt|Hge].
  { apply ret_Ok in H as [-> ->]. by left. }
  right. apply bind_Ok in H as (found & st1 & Hsearch & H).
  pose proof (scenic_search_Ok _ _ _ _ _ _ _ _ _ Hsearch) as [-> _].
  destruct found as [[route d]|].
  - right. apply bind_Ok in H as (f & st2 & Hf & H).
    apply ret_Ok in H as [-> ->].
    apply scenic_feature_inv in Hf as (es & z & _ & _ & _ & Hz & _).
    apply randint_Ok in Hz as [_ ->]. split; [by eexists|lia].
  - left. by apply ret_Ok in H as [-> ->].
Qed.

Lemma loop_search_cursor (G : Graph) sp tape c radius st r st' :
  loop_search G sp tape c radius st = Ok (r, st') →
  (r = None ∧ st' = st) ∨ st' = (st + 4)%nat.
Proof.
  unfold loop_search. intros H.
  destruct (Nat.ltb_spec (length (nearby_nodes G c radius)) 4) as [Hlt|Hge].
  { apply ret_Ok in H as [-> ->]. by left. }
  right. rewrite Nat.min_l in H by done.
  apply bind_Ok in H as (wps & st1 & Hsample & H).
  apply lift_Ok in H as [_ ->].
  by apply random_sample_Ok in Hsample as [_ ->].
Qed.

Lemma generate_loop_route_cursor (G : Graph) sp tape cp radius st o st' :
  generate_loop_route G sp tape cp radius st = Ok (o, st') →
  (st <= st' <= st + 6)%nat.
Proof.
  unfold generate_loop_route. intros H.
  apply bind_Ok in H as (c & st1 & Hc & H).
  apply bind_Ok in H as (found & st2 & Hsearch & H).
  assert (Hc1 : (st <= st1 <= st + 1)%nat).
  { destruct cp as [c0|]; simpl in Hc.
    - apply ret_Ok in Hc as [_ ->]. lia.
    - apply bind_Ok in Hc as (n & st0 & Hn & Hc).
      apply random_choice_Ok in Hn as [_ ->].
      apply lift_Ok in Hc as [_ ->]. lia. }
  assert (Hc2 : (st1 <= st2 <= st1 + 4)%nat).
  { apply loop_search_cursor in Hsearch as [[_ ->]| ->]; lia. }
  destruct found as [[route d]|].
  - apply bind_Ok in H as (f & st3 & Hf & H). apply ret_Ok in H as [_ ->].
    apply loop_feature_inv in Hf as (z & _ & _ & Hz & _).
    apply randint_Ok in Hz as [_ ->]. lia.
  - apply ret_Ok in H as [_ ->]. lia.
Qed.

Lemma route_attempt_cursor (G : Graph) sp tape i st o st' :
  route_attempt G sp tape i st = Ok (o, st') → (st <= st' <= st + 43)%nat.
Proof.
  unfold route_attempt. destruct (i mod 2 =? 0)%nat; intros H.
  - apply bind_Ok in H as (j1 & st1 & Hj1 & H).
    apply bind_Ok in H as (j2 & st2 & Hj2 & H).
    apply randint_Ok in Hj1 as [_ ->]. apply randint_Ok in Hj2 as [_ ->].
    apply generate_scenic_route_cursor in H
      as [(_ & _ & ->)|[(_ & _ & ->)|(_ & ->)]]; lia.
  - apply bind_Ok in H as (j & st1 & Hj & H).
    apply randint_Ok in Hj as [_ ->].
    apply generate_loop_route_cursor in H. lia.
Qed.

Lemma attempts_cursor (G : Graph) sp tape i k st os st' :
  attempts G sp tape i k st os st' → (st <= st' <= st + 43 * k)%nat.
Proof.
  induction 1 as [|i k st o st1 os st2 Hatt Hrest IH]; [lia|].
  apply route_attempt_cursor in Hatt. lia.
Qed.

(** X13. The work of a request is bounded by its retry budgets: a scenic
    generation reads no cell of the tape (fewer than two major nodes), 40
    cells (nothing found) or 41 cells (a feature); a loop generation reads at
    most 6; a collection reads at most 43 per requested route. *)
Theorem draws_are_bounded (G : Graph) sp tape :
  (∀ mn mx st o st',
     generate_scenic_route G sp tape mn mx st = Ok (o, st') →
     (o = None ∧ st' = st) ∨ (o = None ∧ st' = (st + 40)%nat) ∨
     (is_Some o ∧ st' = (st + 41)%nat)) ∧
  (∀ cp radius st o st',
     generate_loop_route G sp tape cp radius st = Ok (o, st') →
     (st <= st' <= st + 6)%nat) ∧
  (∀ n st features st',
     generate_multiple_routes G sp tape n st = Ok (features, st') →
     (st <= st' <= st + 43 * Z.to_nat n)%nat).
Proof.
  split; [|split].
  - intros mn mx st o st' H.
    apply generate_scenic_route_cursor in H
      as [(-> & _ & ->)|[(-> & _ & ->)|(Ho & ->)]]; tauto.
  - intros cp radius st o st'. apply generate_loop_route_cursor.
  - intros n st features st' H. unfold generate_multiple_routes in H.
    apply collect_routes_Ok in H as (os & Hos & _).
    by eapply attempts_cursor.
Qed.

Lemma draws_are_bounded_witness :
  ((Some Demo.city_scenic_feature = None ∧ 41%nat = 0%nat) ∨
   (Some Demo.city_scenic_feature = None ∧ 41%nat = (0 + 40)%nat) ∨
   (is_Some (Some Demo.city_scenic_feature) ∧ 41%nat = (0 + 41)%nat)) ∧
  (0 <= 5 <= 0 + 6)%nat ∧
  (0 <= 91 <= 0 + 43 * Z.to_nat 3)%nat.
Proof.
  destruct (draws_are_bounded Demo.city Demo.city_sp Demo.counting)
    as (Hscenic & _ & Hcoll).
  destruct (draws_are_bounded Demo.city Demo.city_sp Demo.zeros)
    as (_ & Hloop & _).
  split; [exact (Hscenic _ _ _ _ _ city_scenic_run)|].
  split; [exact (Hloop _ _ _ _ _ city_loop_run)|].
  exact (Hcoll _ _ _ _ city_collection_run).
Defined.

(** ** More on the selector *)

(** X14. One major edge between two different nodes is enough for the
    selector to supply the two anchors the scenic search needs: the search
    then runs its twenty passes instead of giving up at once. *)
Theorem major_edge_gives_anchors (g : Graph) (e : Edge) :
  e ∈ edges g → is_major e = true → eu e ≠ ev e →
  (2 <= size (major_nodes g))%nat ∧
  ∀ sp tape mn mx st o st',
    generate_scenic_route g sp tape mn mx st = Ok (o, st') →
    (st + 40 <= st')%nat.
Proof.
  intros He Hmaj Hne.
  assert (Hsize : (2 <= size (major_nodes g))%nat).
  { assert (Hsub : ({[eu e]} ∪ {[ev e]} : gset node) ⊆ major_nodes g).
    { intros n Hn. apply major_nodes_spec. exists e.
      split; [done|]. split; [done|].
      apply elem_of_union in Hn as [Hn|Hn]; apply elem_of_singleton in Hn; tauto. }
    apply subseteq_size in Hsub.
    rewrite size_union in Hsub.
    - by rewrite !size_singleton in Hsub.
    - intros n Hu Hv. apply elem_of_singleton in Hu, Hv. congruence. }
  split; [done|].
  intros sp tape mn mx st o st' H.
  apply generate_scenic_route_cursor in H
    as [(_ & Hlt & _)|[(_ & _ & ->)|(_ & ->)]]; [|lia..].
  unfold size, set_size in Hsize. simpl in Hsize. lia.
Qed.

Lemma major_edge_gives_anchors_witness :
  (2 <= size (major_nodes Demo.twin))%nat ∧
  ∀ sp tape mn mx st o st',
    generate_scenic_route Demo.twin sp tape mn mx st = Ok (o, st') →
    (st + 40 <= st')%nat.
Proof.
  apply (major_edge_gives_anchors Demo.twin
           (Demo.mk_edge 1 2 0 "primary" None None)).
  - by left.
  - reflexivity.
  - discriminate.
Defined.

(** *** Numeric speed limits *)

Lemma pretty_N_char_digit (d : N) :
  (d < 10)%N →
  is_digit (pretty_N_char d) = true ∧ digit_value (pretty_N_char d) = d.
Proof.
  intros Hd.
  assert (d = 0 ∨ d = 1 ∨ d = 2 ∨ d = 3 ∨ d = 4 ∨ d = 5 ∨ d = 6 ∨ d = 7
          ∨ d = 8 ∨ d = 9)%N as Hcases by lia.
  repeat (destruct Hcases as [->|Hcases]; [by split|]). by subst.
Qed.

Lemma pretty_N_go_digits (x : N) (s : string) :
  all_chars is_digit s = true →
  all_chars is_digit (pretty_N_go x s) = true ∧
  decimal_value (pretty_N_go x s)
    = (x * 10 ^ N.of_nat (String.length s) + decimal_value s)%N ∧
  (s ≠ EmptyString ∨ (0 < x)%N → pretty_N_go x s ≠ EmptyString).
Proof.
  revert s. induction (N.lt_wf_0 x) as [x _ IH]. intros s Hs.
  assert (x = 0 ∨ 0 < x)%N as [->|Hpos] by lia.
  - rewrite pretty_N_go_0. split; [done|]. split; [lia|].
    intros [?|?]; [done|lia].
  - rewrite pretty_N_go_step by done.
    destruct (pretty_N_char_digit (x `mod` 10)%N) as [Hdig Hval].
    { by apply N.mod_lt. }
    destruct (IH (x `div` 10)%N ltac:(by apply N.div_lt)
                (String (pretty_N_char (x `mod` 10)) s)) as (Hall & Hdec & Hne).
    { simpl. by rewrite Hdig, Hs. }
    split; [done|]. split; [|intros _; apply Hne; by left].
    rewrite Hdec. simpl String.length. simpl decimal_value. rewrite Hval.
    rewrite Nat2N.inj_succ, N.pow_succ_r'.
    pose proof (N.div_mod x 10 ltac:(done)). nia.
Qed.

Lemma pretty_N_digits (x : N) :
  all_chars is_digit (pretty x) = true ∧ decimal_value (pretty x) = x ∧
  pretty x ≠ EmptyString.
Proof.
  unfold pretty, pretty_N. destruct (decide (x = 0%N)) as [->|Hx]; [done|].
  destruct (pretty_N_go_digits x EmptyString eq_refl) as (Hall & Hdec & Hne).
  split; [done|]. split; [|apply Hne; right; lia].
  rewrite Hdec. simpl. lia.
Qed.

Lemma append_empty_r (s : string) : s +:+ EmptyString = s.
Proof. induction s as [|c s IH]; [done|]. by rewrite append_cons, IH. Qed.

(** X15. A numeric speed limit is read back from its printed form with its
    sign dropped: [n] and [-n] both count as the speed [|n|], so an edge
    whose numeric maxspeed is at least 45 in absolute value is major. *)
Theorem numeric_maxspeed_roundtrip (z : Z) :
  maxspeed_value (Some (SpeedNum z)) = Some (Z.abs_N z) ∧
  ∀ e, maxspeed e = Some (SpeedNum z) → (45 <= Z.abs z)%Z → is_major e = true.
Proof.
  assert (Hval : maxspeed_value (Some (SpeedNum z)) = Some (Z.abs_N z)).
  { apply maxspeed_value_spec. unfold first_embedded_int, astype_str.
    destruct z as [|p|p].
    - exists EmptyString, "0"%string, EmptyString. by vm_compute.
    - destruct (pretty_N_digits (N.pos p)) as (Hall & Hdec & Hne).
      exists EmptyString, (pretty (N.pos p)), EmptyString.
      rewrite append_nil, append_empty_r. done.
    - destruct (pretty_N_digits (N.pos p)) as (Hall & Hdec & Hne).
      exists "-"%string, (pretty (N.pos p)), EmptyString.
      rewrite append_empty_r. done. }
  split; [done|]. intros e He Hz. unfold is_major.
  rewrite He, Hval. apply orb_true_iff. right. apply N.leb_le. lia.
Qed.

Lemma numeric_maxspeed_roundtrip_witness :
  maxspeed_value (Some (SpeedNum (-50))) = Some (Z.abs_N (-50)) ∧
  is_major {| eu := 1; ev := 2; length_m := 10; highway := None;
              name := None; maxspeed := Some (SpeedNum (-50)) |} = true.
Proof.
  destruct (numeric_maxspeed_roundtrip (-50)) as [Hval Hmajor].
  split; [exact Hval|]. apply Hmajor; [reflexivity|]. simpl. lia.
Defined.

(** ** The reported length of a loop against its true length *)

Lemma foldl_Qplus (a : Q) (l : list Q) : (foldl Qplus a l == a + qsum l)%Q.
Proof.
  unfold qsum. revert a. induction l as [|x l IH]; intros a; simpl.
  - ring.
  - rewrite (IH (a + x)%Q), (IH (0 + x)%Q). ring.
Qed.

Lemma qsum_app (l1 l2 : list Q) : (qsum (l1 ++ l2) == qsum l1 + qsum l2)%Q.
Proof. unfold qsum at 1. rewrite foldl_app. apply foldl_Qplus. Qed.

Lemma qsum_cons (x : Q) (l : list Q) : (qsum (x :: l) == x + qsum l)%Q.
Proof.
  change (x :: l) with ([x] ++ l). rewrite qsum_app.
  unfold qsum at 1. simpl. ring.
Qed.

Lemma route_edges_cons (G : Graph) (u v : node) (r : list node) :
  get_route_edge_attributes G (u :: v :: r) =
  rbind (cheapest_edge G u v) (λ e,
    rbind (get_route_edge_attributes G (v :: r)) (λ es, Ok (e :: es))).
Proof. reflexivity. Qed.

Lemma route_edges_join (G : Graph) (full seg : list node) es_full es_seg :
  full ≠ [] → last full = head seg →
  get_route_edge_attributes G full = Ok es_full →
  get_route_edge_attributes G seg = Ok es_seg →
  get_route_edge_attributes G (full ++ drop 1 seg) = Ok (es_full ++ es_seg).
Proof.
  intros Hne Hjoin Hfull Hseg.
  destruct seg as [|x rest].
  { destruct full as [|a full]; [done|]. by rewrite last_cons in Hjoin;
      destruct (last full). }
  change (drop 1 (x :: rest)) with rest. revert es_full Hfull.
  induction full as [|a [|b full] IH]; intros es_full Hfull; [done| |].
  - simpl in Hjoin. injection Hjoin as ->. injection Hfull as <-. done.
  - rewrite route_edges_cons in Hfull.
    apply rbind_Ok in Hfull as (e & He & Hfull).
    apply rbind_Ok in Hfull as (es & Hes & Hfull). injection Hfull as <-.
    rewrite last_cons_cons in Hjoin.
    specialize (IH ltac:(done) Hjoin es Hes).
    change ((a :: b :: full) ++ rest) with (a :: b :: (full ++ rest)).
    change ((b :: full) ++ rest) with (b :: (full ++ rest)) in IH.
    rewrite route_edges_cons, He, IH. done.
Qed.

Lemma route_distance_join (G : Graph) (full seg : list node) d_full d_seg :
  full ≠ [] → last full = head seg →
  route_distance G full = Ok d_full → route_distance G seg = Ok d_seg →
  ∃ d, route_distance G (full ++ drop 1 seg) = Ok d ∧ (d == d_full + d_seg)%Q.
Proof.
  unfold route_distance. intros Hne Hjoin Hfull Hseg.
  apply rbind_Ok in Hfull as (es_full & Hes_full & Hfull). injection Hfull as <-.
  apply rbind_Ok in Hseg as (es_seg & Hes_seg & Hseg). injection Hseg as <-.
  rewrite (route_edges_join G full seg es_full es_seg) by done. simpl.
  eexists. split; [done|]. rewrite fmap_app. apply qsum_app.
Qed.

Lemma route_distance_first_edge (G : Graph) (seg : list node) d :
  route_distance G seg = Ok d →
  ∃ d', route_distance G (drop 1 seg) = Ok d' ∧
        (d == first_edge_length G seg + d')%Q.
Proof.
  unfold route_distance. intros H.
  destruct seg as [|u [|v rest]].
  - injection H as <-. exists 0%Q. split; [done|]. vm_compute. reflexivity.
  - injection H as <-. exists 0%Q. split; [done|]. vm_compute. reflexivity.
  - rewrite route_edges_cons in H.
    apply rbind_Ok in H as (es & Hes & H). injection H as <-.
    apply rbind_Ok in Hes as (e & He & Hes).
    apply rbind_Ok in Hes as (es' & Hes' & Hes). injection Hes as <-.
    change (drop 1 (u :: v :: rest)) with (v :: rest). rewrite Hes'.
    unfold first_edge_length. rewrite He.
    eexists. split; [done|]. rewrite fmap_cons. apply qsum_cons.
Qed.

Lemma min_by_length_elem (e : Edge) (es : list Edge) :
  min_by_length e es ∈ e :: es.
Proof.
  revert e. induction es as [|e' es IH]; intros e; simpl; [by left|].
  specialize (IH (if Qltb (length_m e') (length_m e) then e' else e)).
  destruct (Qltb _ _).
  - apply elem_of_cons. by right.
  - apply elem_of_cons in IH as [->|IH]; apply elem_of_cons; [by left|].
    right. apply elem_of_cons. by right.
Qed.

Lemma cheapest_edge_Ok (G : Graph) (u v : node) (e : Edge) :
  cheapest_edge G u v = Ok e → e ∈ edges G ∧ eu e = u ∧ ev e = v.
Proof.
  unfold cheapest_edge, get_edge_data.
  destruct (filter _ _) as [|e0 es] eqn:Hf; [done|].
  intros H. injection H as <-.
  pose proof (min_by_length_elem e0 es) as Hel. rewrite <- Hf in Hel.
  apply list_elem_of_filter in Hel as [[Hu Hv] Hel]. done.
Qed.

Lemma first_edge_length_nonneg (G : Graph) (seg : list node) :
  (∀ e, e ∈ edges G → (0 <= length_m e)%Q) → (0 <= first_edge_length G seg)%Q.
Proof.
  intros Hpos. unfold first_edge_length.
  destruct seg as [|u [|v r]]; [apply Qle_refl..|].
  destruct (cheapest_edge G u v) as [e|] eqn:He; [|apply Qle_refl].
  apply cheapest_edge_Ok in He as [He _]. by apply Hpos.
Qed.

(** X16. Given a shortest-path primitive that answers with walks from source
    to target, the route of a loop really measures the sum of its four
    segments, while the length the builder reports falls short of it by the
    first edges of the second, third and fourth segment; with non-negative
    edge lengths the reported length never exceeds the true one. *)
Theorem loop_total_shortfall (G : Graph) sp tape (c : Q * Q) (radius : Q)
    (st : nat) (route : list node) (d : Q) (st' : nat) :
  sound_paths G sp →
  loop_search G sp tape c radius st = Ok (Some (route, d), st') →
  ∃ w0 w1 w2 w3 s0 s1 s2 s3 l0 l1 l2 l3 actual,
    (sp w0 w1 = Some s0 ∧ sp w1 w2 = Some s1 ∧
     sp w2 w3 = Some s2 ∧ sp w3 w0 = Some s3) ∧
    (route_distance G s0 = Ok l0 ∧ route_distance G s1 = Ok l1 ∧
     route_distance G s2 = Ok l2 ∧ route_distance G s3 = Ok l3) ∧
    route_distance G route = Ok actual ∧
    (actual == l0 + l1 + l2 + l3)%Q ∧
    (d + (first_edge_length G s1 + first_edge_length G s2
          + first_edge_length G s3) == actual)%Q ∧
    ((∀ e, e ∈ edges G → (0 <= length_m e)%Q) → (d <= actual)%Q).
Proof.
  intros Hsound H.
  apply loop_search_unfold in H
    as (w0 & w1 & w2 & w3 & s0 & s1 & s2 & s3 & d0 & d1 & d2 & d3
        & _ & (H0 & H1 & H2 & H3) & (Hd0 & Hd1 & Hd2 & Hd3) & -> & ->).
  destruct (Hsound _ _ _ H0) as (Hh0 & Hl0 & _).
  destruct (Hsound _ _ _ H1) as (Hh1 & Hl1 & Hw1).
  destruct (Hsound _ _ _ H2) as (Hh2 & Hl2 & Hw2).
  destruct (Hsound _ _ _ H3) as (Hh3 & Hl3 & Hw3).
  destruct (route_distance_total G s1 Hw1) as (l1 & Hr1).
  destruct (route_distance_total G s2 Hw2) as (l2 & Hr2).
  destruct (route_distance_total G s3 Hw3) as (l3 & Hr3).
  destruct (route_distance_first_edge G s1 l1 Hr1) as (d1' & Hd1' & He1).
  destruct (route_distance_first_edge G s2 l2 Hr2) as (d2' & Hd2' & He2).
  destruct (route_distance_first_edge G s3 l3 Hr3) as (d3' & Hd3' & He3).
  assert (d1' = d1) as -> by congruence.
  assert (d2' = d2) as -> by congruence.
  assert (d3' = d3) as -> by congruence.
  assert (Hne0 : s0 ≠ []) by (by intros ->).
  assert (Hne1 : s1 ≠ []) by (by intros ->).
  assert (Hne2 : s2 ≠ []) by (by intros ->).
  destruct (route_distance_join G s0 s1 d0 l1) as (a1 & Ha1 & Hq1);
    [done|congruence|done..|].
  destruct (route_distance_join G (s0 ++ drop 1 s1) s2 a1 l2) as (a2 & Ha2 & Hq2);
    [by destruct s0| |done..|].
  { rewrite last_app_drop by (done || congruence). congruence. }
  destruct (route_distance_join G ((s0 ++ drop 1 s1) ++ drop 1 s2) s3 a2 l3)
    as (a3 & Ha3 & Hq3); [by destruct s0| |done..|].
  { rewrite last_app_drop; [congruence|done|].
    rewrite last_app_drop by (done || congruence). congruence. }
  rewrite <- !app_assoc in Ha3.
  exists w0, w1, w2, w3, s0, s1, s2, s3, d0, l1, l2, l3, a3.
  split; [done|]. split; [done|]. split; [done|].
  assert (Hactual : (a3 == d0 + l1 + l2 + l3)%Q) by (rewrite Hq3, Hq2, Hq1; ring).
  assert (Hshort : (0 + d0 + d1 + d2 + d3
             + (first_edge_length G s1 + first_edge_length G s2
                + first_edge_length G s3) == a3)%Q).
  { rewrite Hactual, He1, He2, He3. ring. }
  split; [done|]. split; [done|].
  intros Hpos. rewrite <- Hshort.
  pose proof (first_edge_length_nonneg G s1 Hpos) as Hf1.
  pose proof (first_edge_length_nonneg G s2 Hpos) as Hf2.
  pose proof (first_edge_length_nonneg G s3 Hpos) as Hf3.
  rewrite <- (Qplus_0_r (0 + d0 + d1 + d2 + d3)) at 1.
  apply Qplus_le_r.
  apply (Qle_trans _ (0 + 0 + 0)%Q); [apply Qle_refl|].
  repeat apply Qplus_le_compat; done.
Qed.

Lemma loop_total_shortfall_witness :
  ∃ w0 w1 w2 w3 s0 s1 s2 s3 l0 l1 l2 l3 actual,
    (Demo.city_sp w0 w1 = Some s0 ∧ Demo.city_sp w1 w2 = Some s1 ∧
     Demo.city_sp w2 w3 = Some s2 ∧ Demo.city_sp w3 w0 = Some s3) ∧
    (route_distance Demo.city s0 = Ok l0 ∧ route_distance Demo.city s1 = Ok l1 ∧
     route_distance Demo.city s2 = Ok l2 ∧ route_distance Demo.city s3 = Ok l3) ∧
    route_distance Demo.city [1; 2; 5; 3; 4; 1] = Ok actual ∧
    (actual == l0 + l1 + l2 + l3)%Q ∧
    (250 + (first_edge_length Demo.city s1 + first_edge_length Demo.city s2
            + first_edge_length Demo.city s3) == actual)%Q ∧
    ((∀ e, e ∈ edges Demo.city → (0 <= length_m e)%Q) → (250 <= actual)%Q).
Proof.
  exact (loop_total_shortfall Demo.city Demo.city_sp Demo.zeros (0, 0)%Q 5000
           0%nat [1; 2; 5; 3; 4; 1] 250%Q 4%nat
           city_sp_sound city_loop_search_run).
Defined.

(** ** Windows that admit no route *)

(** X17. The scenic generator returns no feature when the window is empty
    ([max_distance < min_distance]) or lies at or below zero
    ([max_distance <= 0]). *)
Theorem scenic_empty_window (G : Graph) sp tape (min_distance max_distance : Q)
    (st : nat) (o : option Feature) (st' : nat) :
  (max_distance < min_distance)%Q ∨ (max_distance <= 0)%Q →
  generate_scenic_route G sp tape min_distance max_distance st = Ok (o, st') →
  o = None.
Proof.
  intros Hwin H. destruct o as [f|]; [exfalso|done].
  apply generate_scenic_route_Ok in H as (_ & route & d & Hsearch & _).
  apply scenic_search_Ok in Hsearch as (_ & k & _ & Hk & Hpos & _).
  apply scenic_sample_Some in Hk as (_ & _ & _ & _ & _ & _ & _ & Hmin & Hmax).
  destruct Hwin as [Hlt|Hle].
  - apply (Qlt_irrefl d). eapply Qle_lt_trans; [exact Hmax|].
    by eapply Qlt_le_trans.
  - apply (Qlt_irrefl d). eapply Qle_lt_trans; [|exact Hpos].
    by eapply Qle_trans.
Qed.

Lemma scenic_empty_window_witness :
  generate_scenic_route Demo.city Demo.city_sp Demo.counting 1000 100 0%nat
    = Ok (None, 40%nat) ∧
  @None Feature = None.
Proof.
  assert (H : generate_scenic_route Demo.city Demo.city_sp Demo.counting
                1000 100 0%nat = Ok (None, 40%nat)) by (vm_compute; reflexivity).
  split; [exact H|].
  exact (scenic_empty_window Demo.city Demo.city_sp Demo.counting 1000 100
           0%nat None 40%nat (or_introl eq_refl) H).
Defined.

(** ** Asking for one more route *)

Lemma attempts_snoc (G : Graph) sp tape (i k st : nat) os st' :
  attempts G sp tape i (S k) st os st' ↔
  ∃ os0 o st0,
    attempts G sp tape i k st os0 st0 ∧
    route_attempt G sp tape (i + k) st0 = Ok (o, st') ∧
    os = os0 ++ [o].
Proof.
  revert i st os. induction k as [|k IH]; intros i st os.
  - split.
    + intros H. inversion H as [|? ? ? o st1 os' ? Hatt Hrest]; subst.
      inversion Hrest; subst.
      exists [], o, st. rewrite Nat.add_0_r. split; [constructor|done].
    + intros (os0 & o & st0 & H0 & Hatt & ->). inversion H0; subst.
      rewrite Nat.add_0_r in Hatt. econstructor; [done|constructor].
  - split.
    + intros H. inversion H as [|? ? ? o st1 os' ? Hatt Hrest]; subst.
      apply IH in Hrest as (os0 & o' & st0 & H0 & Hatt' & ->).
      exists (o :: os0), o', st0.
      split; [by econstructor|]. split; [|done].
      by replace (i + S k)%nat with (S i + k)%nat by lia.
    + intros (os0 & o' & st0 & H0 & Hatt & ->).
      inversion H0 as [|? ? ? o st1 os' ? Hatt0 Hrest]; subst.
      apply (attempts_cons _ _ _ i (S k) st o st1); [done|].
      apply IH. exists os', o', st0. split; [done|]. split; [|done].
      by replace (S i + k)%nat with (i + S k)%nat by lia.
Qed.

(** X18. Asking for one more route only appends: the collection for
    [count + 1] is the collection for [count] followed by the outcome of one
    further attempt, at index [count], started where the shorter run
    stopped. *)
Theorem collection_one_more (G : Graph) sp tape (num_routes : Z) (st : nat)
    (features : list Feature) (st' : nat) :
  (0 <= num_routes)%Z →
  generate_multiple_routes G sp tape (num_routes + 1) st = Ok (features, st') →
  ∃ features0 st0 o,
    generate_multiple_routes G sp tape num_routes st = Ok (features0, st0) ∧
    route_attempt G sp tape (Z.to_nat num_routes) st0 = Ok (o, st') ∧
    features = features0 ++ match o with Some f => [f] | None => [] end.
Proof.
  intros Hn. unfold generate_multiple_routes.
  replace (Z.to_nat (num_routes + 1)) with (S (Z.to_nat num_routes)) by lia.
  intros H. apply collect_routes_Ok in H as (os & Hos & ->).
  apply attempts_snoc in Hos as (os0 & o & st0 & H0 & Hatt & ->).
  exists (omap id os0), st0, o. split; [|split; [done|]].
  - apply collect_routes_Ok. by exists os0.
  - simpl. rewrite omap_app. by destruct o.
Qed.

Lemma collection_one_more_witness :
  ∃ features0 st0 o,
    generate_multiple_routes Demo.city Demo.city_sp Demo.counting 2 0%nat
      = Ok (features0, st0) ∧
    route_attempt Demo.city Demo.city_sp Demo.counting (Z.to_nat 2) st0
      = Ok (o, 91%nat) ∧
    [Demo.city_collection_feature]
      = features0 ++ match o with Some f => [f] | None => [] end.
Proof.
  exact (collection_one_more Demo.city Demo.city_sp Demo.counting 2 0%nat
           [Demo.city_collection_feature] 91%nat ltac:(discriminate)
           city_collection_run).
Defined.
